(** * Pade approximants (Vidberg-Serene continued fraction)

    A shallow embedding of [c++/triqs/utility/pade_approximants.hpp]:
    the [gmp_complex] arithmetic, the constructor of [pade_approximant]
    (the coefficient tableau) and its call operator (the evaluator).

    An [mpf_class] and a finite [double] are both a canonical rational
    [Qc].  Sums, differences and products are exact, those of [double]
    included; the conversions between [double] and [mpf_class] are the
    identity; a [double] neither overflows nor underflows.  The literal
    [1.0e-20] is the rational the [double] holds.  The division of
    [mpf_class], the one operation of GMP that loses bits on the
    smallest operands, is a parameter of the constructor: the functions
    whose name ends in [_with] take it, together with the precision in
    force, and the functions without the suffix are their instances at
    the exact division.  Properties stated of the instances are
    properties of the code in exact arithmetic.

    The other behaviours kept are the ones the control flow depends on:
    the exception thrown by [inverse], the non-finite result of a
    [double] division by zero, the indices at which containers are read,
    and the process-wide default precision of GMP. *)

From Stdlib Require Import QArith Qcanon Field Lia Lqa.
From stdpp Require Import base list.

Local Open Scope Qc_scope.

(** ** Real numbers: [mpf_class] and [double] *)

Abbreviation mpf_class := Qc (only parsing).

Definition mpf_eqb (x y : mpf_class) : bool := Qeq_bool x y.

Definition mpf_ltb (x y : mpf_class) : bool :=
  match x ?= y with
  | Lt => true
  | _ => false
  end.

(** ** Complex numbers *)

Record complex : Type := Cx { re : mpf_class; im : mpf_class }.

(** [struct gmp_complex { mpf_class re, im; ... }] *)
Abbreviation gmp_complex := complex (only parsing).

Definition C0 : complex := Cx 0 0.
Definition C1 : complex := Cx 1 0.

(** [operator*]: [{rhs.re * re - rhs.im * im, rhs.re * im + rhs.im * re}] *)
Definition Cmul (this rhs : complex) : complex :=
  Cx (re rhs * re this - im rhs * im this) (re rhs * im this + im rhs * re this).

(** [operator+]: [{rhs.re + re, rhs.im + im}] *)
Definition Cadd (this rhs : complex) : complex :=
  Cx (re rhs + re this) (im rhs + im this).

(** [operator-]: [{re - rhs.re, im - rhs.im}] *)
Definition Csub (this rhs : complex) : complex :=
  Cx (re this - re rhs) (im this - im rhs).

Definition Copp (x : complex) : complex := Cx (- re x) (- im x).

(** [norm()]: [real * real + imag * imag] *)
Definition norm (x : complex) : mpf_class := re x * re x + im x * im x.

(** The value [{rhs.re / d, -rhs.im / d}] returned by [inverse] when it
    does not throw. *)
Definition Cinv (rhs : complex) : complex :=
  let d := re rhs * re rhs + im rhs * im rhs in
  Cx (re rhs / d) (- im rhs / d).

Definition Cdiv (x y : complex) : complex := Cmul x (Cinv y).

Definition Ceqb (x y : complex) : bool :=
  mpf_eqb (re x) (re y) && mpf_eqb (im x) (im y).

(** A rational number as a complex one (reading a literal). *)
Definition CQ (q : Q) : complex := Cx (Q2Qc q) 0.

Declare Scope complex_scope.
Delimit Scope complex_scope with C.
Bind Scope complex_scope with complex.
Infix "+" := Cadd : complex_scope.
Infix "-" := Csub : complex_scope.
Infix "*" := Cmul : complex_scope.
Infix "/" := Cdiv : complex_scope.
Notation "- x" := (Copp x) : complex_scope.

(** ** Outcomes of fallible code *)

Inductive error : Type :=
  | GMP_division_by_zero   (* TRIQS_RUNTIME_ERROR thrown by [inverse] *)
  | index_out_of_range.    (* a container read or written outside its extent *)

Inductive outcome (A : Type) : Type :=
  | Ok (a : A)
  | Throw (e : error).
Arguments Ok {A} a.
Arguments Throw {A} e.

#[global] Instance outcome_ret : MRet outcome := fun A a => Ok a.

#[global] Instance outcome_bind : MBind outcome := fun A B k m =>
  match m with
  | Ok a => k a
  | Throw e => Throw e
  end.

(** [static const int GMP_default_prec = 256] *)
Definition GMP_default_prec : N := 256%N.

(** The division of [mpf_class]: [quot prec x y] is the quotient of [x]
    by [y] computed at the precision of [prec] bits. *)
Abbreviation division := (N -> mpf_class -> mpf_class -> mpf_class) (only parsing).

(** The division that loses nothing, at every precision. *)
Definition exact_division : division := fun _ x y => x / y.

(** A division that truncates the quotient toward zero after
    [prec + 64] binary places.  This is what [mpf_div] returns at a
    precision of [prec] bits, a multiple of 64, when both operands fill
    one limb of 64 bits and the quotient is below one: the quotient is
    kept in [prec / 64 + 1] limbs. *)
Definition mpf_div_truncated : division := fun prec x y =>
  let q : Q := (x / y)%Qc in
  let scale := (2 ^ Z.of_N (prec + 64))%Z in
  Q2Qc (Qmake (Z.quot (Qnum q * scale) (Zpos (Qden q))) (Z.to_pos scale)).

(** [friend gmp_complex inverse(const gmp_complex &rhs)] *)
Definition inverse_with (quot : division) (prec : N) (rhs : gmp_complex)
    : outcome gmp_complex :=
  let d := re rhs * re rhs + im rhs * im rhs in
  if mpf_eqb d 0 then Throw GMP_division_by_zero
  else Ok (Cx (quot prec (re rhs) d) (quot prec (- im rhs) d)).

Definition inverse (rhs : gmp_complex) : outcome gmp_complex :=
  inverse_with exact_division GMP_default_prec rhs.

(** [operator/]: the product of [this] and [inverse(rhs)] *)
Definition gmp_div_with (quot : division) (prec : N) (this rhs : gmp_complex)
    : outcome gmp_complex :=
  r ← inverse_with quot prec rhs; Ok (Cmul this r).

Definition gmp_div (this rhs : gmp_complex) : outcome gmp_complex :=
  gmp_div_with exact_division GMP_default_prec this rhs.

(** ** Containers *)

(** [nda::vector<dcomplex>] holding finite numbers. *)
Abbreviation vector := (list complex) (only parsing).

Definition vec_get (v : vector) (i : nat) : outcome complex :=
  match v !! i with
  | Some x => Ok x
  | None => Throw index_out_of_range
  end.

Definition vec_set (v : vector) (i : nat) (x : complex) : outcome vector :=
  if decide (i < length v)%nat then Ok (<[i := x]> v) else Throw index_out_of_range.

(** [nda::array<gmp_complex, 2>], a list of rows. *)
Abbreviation array2 := (list (list complex)) (only parsing).

Definition arr_get (g : array2) (i j : nat) : outcome gmp_complex :=
  match g !! i with
  | Some row => vec_get row j
  | None => Throw index_out_of_range
  end.

Definition arr_set (g : array2) (i j : nat) (x : gmp_complex) : outcome array2 :=
  match g !! i with
  | Some row => row' ← vec_set row j x; Ok (<[i := row']> g)
  | None => Throw index_out_of_range
  end.

(** ** Reads of the approximant's vectors

    The evaluator is run in a writer monad that records, in program
    order, which element of which member vector each read touches. *)

Inductive access : Type :=
  | read_a (i : nat)
  | read_z_in (i : nat).

Record traced (A : Type) : Type := Traced { reads : list access; result : outcome A }.
Arguments Traced {A} reads result.
Arguments reads {A} t.
Arguments result {A} t.

#[global] Instance traced_ret : MRet traced := fun A a => Traced [] (Ok a).

#[global] Instance traced_bind : MBind traced := fun A B k m =>
  match result m with
  | Ok a => Traced (reads m ++ reads (k a)) (result (k a))
  | Throw e => Traced (reads m) (Throw e)
  end.

(** [for (int i = start; i < start + count; ++i) body] *)
Fixpoint for_loop {M : Type -> Type} `{!MBind M, !MRet M} {St : Type}
    (count start : nat) (body : nat -> St -> M St) (s : St) : M St :=
  match count with
  | O => mret s
  | S k => s' ← body start s; for_loop k (S start) body s'
  end.

(** ** The constructor of [pade_approximant] *)

Record pade_approximant : Type := Pade { z_in : vector; a : vector }.

(** The literal [1.0e-20] of the truncation test: the [double] nearest
    to 1/10^20, which is 6646139978924579 / 2^119. *)
Definition threshold : mpf_class :=
  Q2Qc (6646139978924579 # 664613997892457936451903530140172288).

Definition MP_0 : gmp_complex := Cx 0 0.
Definition MP_1 : gmp_complex := Cx 1 0.

(** The process-wide default precision of GMP floats is the state the
    constructor runs in.  The precision set is the precision asked for:
    GMP rounds it up to whole limbs, which changes neither
    [GMP_default_prec] nor a precision [mpf_get_default_prec] returned. *)
Definition mpf_get_default_prec (st : N) : N := st.
Definition mpf_set_default_prec (prec : N) (st : N) : N := prec.

(** [nda::array<gmp_complex, 2> g(N, N); g() = MP_0;] *)
Definition new_array (N : nat) : array2 := replicate N (replicate N MP_0).

(** [for (int f = 0; f < N; ++f) { g(0, f) = u_in(f); }] *)
Definition first_row (u_in : vector) (N : nat) (g : array2) : outcome array2 :=
  for_loop N 0 (fun f g => uf ← vec_get u_in f; arr_set g 0 f uf) g.

(** The body of [for (int j = p; j < N; ++j)].  The difference [y] of
    the two points is taken in [double], where it is exact. *)
Definition inner_body_with (quot : division) (prec : N) (z_in : vector) (p j : nat)
    (g : array2) : outcome array2 :=
  gpp ← arr_get g (p - 1) (p - 1);
  gpj ← arr_get g (p - 1) j;
  q ← gmp_div_with quot prec gpp gpj;
  let x := (q - MP_1)%C in
  zj ← vec_get z_in j;
  zp ← vec_get z_in (p - 1);
  let y := (zj - zp)%C in
  r ← gmp_div_with quot prec x y;
  arr_set g p j r.

Definition inner_body (z_in : vector) (p j : nat) (g : array2) : outcome array2 :=
  inner_body_with exact_division GMP_default_prec z_in p j g.

(** [for (int p = 1; p < N; ++p)], entered at [p] with [count] iterations
    left; the [break] leaves the loop with the tableau as it is. *)
Fixpoint outer_loop_with (quot : division) (prec : N) (z_in : vector) (N count p : nat)
    (g : array2) : outcome array2 :=
  match count with
  | O => Ok g
  | S k =>
      gpp ← arr_get g (p - 1) (p - 1);
      if mpf_ltb (norm gpp) threshold then Ok g
      else
        g' ← for_loop (N - p) p (inner_body_with quot prec z_in p) g;
        outer_loop_with quot prec z_in N k (S p) g'
  end.

Definition outer_loop (z_in : vector) (N count p : nat) (g : array2) : outcome array2 :=
  outer_loop_with exact_division GMP_default_prec z_in N count p g.

(** The tableau as it is when the two loops that fill it are left. *)
Definition tableau_with (quot : division) (prec : N) (z_in u_in : vector)
    : outcome array2 :=
  let N := length z_in in
  g ← first_row u_in N (new_array N);
  outer_loop_with quot prec z_in N (N - 1) 1 g.

Definition tableau (z_in u_in : vector) : outcome array2 :=
  tableau_with exact_division GMP_default_prec z_in u_in.

(** [for (int j = 0; j < N; ++j) { a(j) = dcomplex(g(j, j)...); }],
    the conversion [get_d] being the identity. *)
Definition diagonal (N : nat) (g : array2) (a : vector) : outcome vector :=
  for_loop N 0 (fun j a => gj ← arr_get g j j; vec_set a j gj) a.

(** The sequence of coefficients the loops of the constructor yield at
    the precision [prec]. *)
Definition coefficients_with (quot : division) (prec : N) (z u : vector)
    : outcome vector :=
  g ← tableau_with quot prec z u; diagonal (length z) g (replicate (length z) C0).

(** [pade_approximant(z_in_, u_in)], run from the default precision
    [st]; the second component is the default precision it leaves.  The
    numbers of the tableau are computed at the default precision in
    force when the tableau is built. *)
Definition pade_approximant_new_with (quot : division) (z_in_ u_in : vector) (st : N)
    : outcome pade_approximant * N :=
  let z_in := z_in_ in
  let a := replicate (length z_in) C0 in
  let N := length z_in in
  let old_prec := mpf_get_default_prec st in
  let st := mpf_set_default_prec GMP_default_prec st in
  match g ← tableau_with quot (mpf_get_default_prec st) z_in u_in; diagonal N g a with
  | Throw e => (Throw e, st)
  | Ok a =>
      let st := mpf_set_default_prec old_prec st in
      (Ok (Pade z_in a), st)
  end.

Definition pade_approximant_new (z_in_ u_in : vector) (st : N)
    : outcome pade_approximant * N :=
  pade_approximant_new_with exact_division z_in_ u_in st.

(** ** The call operator of [pade_approximant] *)

(** [std::complex<double>]: a finite number, or an infinite or NaN one.
    The finite numbers are exact, so that the one source of a
    non-finite number is the division by zero. *)
Inductive dcomplex : Type :=
  | Finite (c : complex)
  | NonFinite.

Definition dadd (x y : dcomplex) : dcomplex :=
  match x, y with
  | Finite u, Finite v => Finite (u + v)
  | _, _ => NonFinite
  end.

Definition dmul (x y : dcomplex) : dcomplex :=
  match x, y with
  | Finite u, Finite v => Finite (u * v)
  | _, _ => NonFinite
  end.

Definition ddiv (x y : dcomplex) : dcomplex :=
  match x, y with
  | Finite u, Finite v => if mpf_eqb (norm v) 0 then NonFinite else Finite (u / v)
  | _, _ => NonFinite
  end.

Definition get_a (P : pade_approximant) (i : nat) : traced complex :=
  Traced [read_a i] (vec_get (a P) i).

Definition get_z_in (P : pade_approximant) (i : nat) : traced complex :=
  Traced [read_z_in i] (vec_get (z_in P) i).

Record accumulators : Type := Acc { A1 : dcomplex; A2 : dcomplex; B1 : dcomplex }.

(** The body of [for (int i = 0; i <= N - 2; ++i)]. *)
Definition step (P : pade_approximant) (e : complex) (i : nat) (s : accumulators)
    : traced accumulators :=
  zi ← get_z_in P i;
  ai ← get_a P (i + 1);
  let Anew := dadd (A2 s) (dmul (Finite ((e - zi) * ai)) (A1 s)) in
  zi' ← get_z_in P i;
  ai' ← get_a P (i + 1);
  let Bnew := dadd (Finite C1) (dmul (Finite ((e - zi') * ai')) (B1 s)) in
  mret (Acc (ddiv (A2 s) Bnew) (ddiv Anew Bnew) (ddiv (Finite C1) Bnew)).

(** [dcomplex operator()(dcomplex e) const] *)
Definition pade_eval (P : pade_approximant) (e : complex) : traced dcomplex :=
  a0 ← get_a P 0;
  let N := length (a P) in
  s ← for_loop (N - 1) 0 (step P e) (Acc (Finite C0) (Finite a0) (Finite C1));
  mret (A2 s).

(** [Evaluate]: the value the call operator returns. *)
Definition Evaluate (P : pade_approximant) (e : complex) : outcome dcomplex :=
  result (pade_eval P e).


(** A vector of integers, for the concrete scenarios. *)
Definition vZ (l : list Z) : vector := map (fun n => CQ (inject_Z n)) l.

(** ** Definitions used to state the properties *)

#[global] Instance complex_inhabited : Inhabited complex := populate C0.

(** The element [g(i, j)], and [MP_0] outside the extent. *)
Definition entry (g : array2) (i j : nat) : complex :=
  match arr_get g i j with
  | Ok x => x
  | Throw _ => C0
  end.

(** [g] has [N] rows of [N] elements. *)
Definition square (N : nat) (g : array2) : Prop :=
  length g = N /\ forall i row, g !! i = Some row -> length row = N.

(** Neither division of the body throws at column [j] of row [p]. *)
Definition divides (z : vector) (p : nat) (g : array2) (j : nat) : Prop :=
  entry g (p - 1) j <> C0 /\ z !!! j <> z !!! (p - 1)%nat.

(** The element the body stores at column [j] of row [p]. *)
Definition quotient (z : vector) (p : nat) (g : array2) (j : nat) : complex :=
  ((entry g (p - 1) (p - 1) / entry g (p - 1) j - MP_1) / (z !!! j - z !!! (p - 1)%nat))%C.

(** The tableau [t] when the loop over [j] arrives at column [j] of row
    [p], having started from [g]. *)
Definition inner_inv (z : vector) (p : nat) (g : array2) (j : nat) (t : array2) : Prop :=
  square (length z) t /\
  (forall k, (p <= k < j)%nat -> entry t p k = quotient z p g k) /\
  (forall i k, i <> p \/ (k < p)%nat \/ (j <= k)%nat -> arr_get t i k = arr_get g i k).

(** [reaches z u p g]: the loop over [p] arrives at the test of
    iteration [p] with the tableau [g], no iteration before having left
    the loop. *)
Inductive reaches (z u : vector) : nat -> array2 -> Prop :=
  | reaches_first g :
      first_row u (length z) (new_array (length z)) = Ok g ->
      reaches z u 1 g
  | reaches_next p g g' :
      reaches z u p g ->
      (p < length z)%nat ->
      mpf_ltb (norm (entry g (p - 1) (p - 1))) threshold = false ->
      for_loop (length z - p) p (inner_body z p) g = Ok g' ->
      reaches z u (S p) g'.

(** Rows [0 .. p-1] of [g] hold the reciprocal differences of the data,
    every division that produced them was defined, no diagonal element
    above row [p-1] was below the threshold, and the rows from [p] on are
    zero. *)
Record filled (z u : vector) (p : nat) (g : array2) : Prop := {
  filled_square : square (length z) g;
  filled_length : (length z <= length u)%nat;
  filled_range : (1 <= p)%nat /\ ((p <= length z)%nat \/ length z = 0%nat);
  filled_first : forall j, (j < length z)%nat -> entry g 0 j = u !!! j;
  filled_rows : forall q j, (1 <= q < p)%nat -> (q <= j < length z)%nat ->
    divides z q g j /\ entry g q j = quotient z q g j;
  filled_diag : forall q, (1 <= q < p)%nat ->
    mpf_ltb (norm (entry g (q - 1) (q - 1))) threshold = false;
  filled_zero : forall i j, (p <= i)%nat -> entry g i j = C0
}.

(** Where the loop over [p] is left: at the end, or by [break]. *)
Definition stops (z : vector) (p : nat) (g : array2) : Prop :=
  (length z <= p)%nat \/
  mpf_ltb (norm (entry g (p - 1) (p - 1))) threshold = true.

(** One iteration of the evaluator on the numbers it has read. *)
Definition Bnew (e zi ai : complex) (s : accumulators) : dcomplex :=
  dadd (Finite C1) (dmul (Finite ((e - zi) * ai)) (B1 s)).

Definition Anew (e zi ai : complex) (s : accumulators) : dcomplex :=
  dadd (A2 s) (dmul (Finite ((e - zi) * ai)) (A1 s)).

Definition update (e zi ai : complex) (s : accumulators) : accumulators :=
  Acc (ddiv (A2 s) (Bnew e zi ai s))
      (ddiv (Anew e zi ai s) (Bnew e zi ai s))
      (ddiv (Finite C1) (Bnew e zi ai s)).

(** Where the evaluator is allowed to read. *)
Definition in_bounds (P : pade_approximant) (r : access) : Prop :=
  match r with
  | read_a i => (i < length (a P))%nat
  | read_z_in i => (i < length (z_in P))%nat /\ (i + 2 <= length (a P))%nat
  end.

(** [eval_reaches P e i s]: the evaluator's loop arrives at iteration [i]
    with the accumulators [s]. *)
Inductive eval_reaches (P : pade_approximant) (e : complex) : nat -> accumulators -> Prop :=
  | eval_first a0 :
      a P !! 0%nat = Some a0 ->
      eval_reaches P e 0 (Acc (Finite C0) (Finite a0) (Finite C1))
  | eval_next i s zi ai :
      eval_reaches P e i s ->
      z_in P !! i = Some zi ->
      a P !! (i + 1)%nat = Some ai ->
      eval_reaches P e (S i) (update e zi ai s).

(** No iteration of the evaluator's loop divides by a zero [Bnew]. *)
Definition denominators_nonzero (P : pade_approximant) (e : complex) : Prop :=
  forall i s zi ai,
    eval_reaches P e i s -> z_in P !! i = Some zi -> a P !! (i + 1)%nat = Some ai ->
    Bnew e zi ai s <> Finite C0.

(** [1 + (x - z0) a0 / (1 + (x - z1) a1 / (1 + ...))], one level for each
    coefficient of [a], undefined when a denominator is zero. *)
Fixpoint denominator (x : complex) (z a : vector) {struct a} : option complex :=
  match a, z with
  | [], _ => Some C1
  | ak :: a', zk :: z' =>
      t ← denominator x z' a';
      if Ceqb t C0 then None else Some (C1 + (x - zk) * ak / t)%C
  | _ :: _, [] => None
  end.

(** The fraction the evaluator computes:
    [a0 / (1 + (x - z0) a1 / (1 + (x - z1) a2 / (1 + ...)))]. *)
Definition continued_fraction (x : complex) (z a : vector) : option complex :=
  match a with
  | [] => None
  | a0 :: a' =>
      t ← denominator x z a';
      if Ceqb t C0 then None else Some (a0 / t)%C
  end.

(** The nested expression as the glossary writes it:
    [a0 + (x - z0) a1 / (1 + (x - z1) a2 / (1 + ...))]. *)
Definition glossary_fraction (x : complex) (z a : vector) : option complex :=
  match a, z with
  | [], _ => None
  | [a0], _ => Some a0
  | a0 :: a1 :: a', z0 :: z' =>
      t ← denominator x z' a';
      if Ceqb t C0 then None else Some (a0 + (x - z0) * a1 / t)%C
  | _ :: _ :: _, [] => None
  end.

(** What remains of the fraction below level [i] at the point [z(k)],
    read off the tableau. *)
Definition remainder (z : vector) (g : array2) (k i : nat) : complex :=
  ((z !!! k - z !!! i) * entry g (i + 1) k)%C.

(** The sequence of coefficients the two loops of the constructor yield. *)
Definition coefficients (z u : vector) : outcome vector :=
  coefficients_with exact_division GMP_default_prec z u.

(** [x] and [y] differ by at most [tol] in magnitude. *)
Definition within (tol : Q) (x y : complex) : Prop :=
  norm (x - y) <= Q2Qc (tol * tol).

(** The points moved by [t]. *)
Definition translate (t : complex) (z : vector) : vector :=
  (fun x => (x + t)%C) <$> z.

(** The recursion of Vidberg and Serene on the data:
    [g_0(z_j) = u_j] and
    [g_p(z_j) = (g_{p-1}(z_{p-1}) / g_{p-1}(z_j) - 1) / (z_j - z_{p-1})]. *)
Fixpoint reciprocal_difference (z u : vector) (p j : nat) : complex :=
  match p with
  | O => u !!! j
  | S q =>
      ((reciprocal_difference z u q q / reciprocal_difference z u q j - C1) /
       (z !!! j - z !!! q))%C
  end.

(** * Arithmetic *)

Lemma mpf_eqb_eq (x y : mpf_class) : mpf_eqb x y = true <-> x = y.
Proof.
  unfold mpf_eqb. split.
  - intros H. apply Qc_is_canon. now apply Qeq_bool_eq.
  - intros ->. apply Qeq_bool_refl.
Qed.

Lemma mpf_eqb_neq (x y : mpf_class) : mpf_eqb x y = false <-> x <> y.
Proof.
  rewrite <- mpf_eqb_eq. destruct (mpf_eqb x y); split; congruence.
Qed.

Lemma mpf_ltb_lt (x y : mpf_class) : mpf_ltb x y = true <-> x < y.
Proof.
  unfold mpf_ltb. rewrite Qclt_alt. destruct (x ?= y); split; congruence.
Qed.

Lemma mpf_ltb_ge (x y : mpf_class) : mpf_ltb x y = false <-> ~ x < y.
Proof.
  rewrite <- mpf_ltb_lt. destruct (mpf_ltb x y); split; congruence.
Qed.

Lemma Ceqb_eq (x y : complex) : Ceqb x y = true <-> x = y.
Proof.
  unfold Ceqb. rewrite andb_true_iff, !mpf_eqb_eq.
  destruct x, y; simpl. split; [intros [-> ->]; reflexivity | intros [= -> ->]; auto].
Qed.

Lemma Q_sum_sq_zero (p q : Q) : (p * p + q * q == 0)%Q -> (p == 0)%Q /\ (q == 0)%Q.
Proof. intros H. split; nra. Qed.

Lemma Qc_sum_sq_zero (x y : Qc) : x * x + y * y = 0 -> x = 0 /\ y = 0.
Proof.
  intros H.
  assert (Hq : (x * x + y * y == 0)%Q).
  { apply (f_equal this) in H.
    change (Qred (Qred (x * x) + Qred (y * y)) = 0%Q) in H.
    rewrite <- (Qred_correct (x * x)), <- (Qred_correct (y * y)).
    rewrite <- (Qred_correct (_ + _)%Q). rewrite H. reflexivity. }
  apply Q_sum_sq_zero in Hq as [Hx Hy].
  split; apply Qc_is_canon; assumption.
Qed.

Lemma norm_zero_iff (x : complex) : norm x = 0 <-> x = C0.
Proof.
  split.
  - intros H. apply Qc_sum_sq_zero in H as [Hr Hi].
    destruct x; simpl in *; subst; reflexivity.
  - intros ->. apply Qc_is_canon. reflexivity.
Qed.

Lemma threshold_pos : 0 < threshold.
Proof. reflexivity. Qed.



Lemma C1_neq_C0 : C1 <> C0.
Proof. intros H. apply (f_equal re) in H. revert H. apply Q_apart_0_1. Qed.

Lemma complex_ring : ring_theory C0 C1 Cadd Cmul Csub Copp eq.
Proof.
  constructor; intros; unfold Cadd, Cmul, Csub, Copp, C0, C1;
    repeat match goal with x : complex |- _ => destruct x end; simpl;
    f_equal; ring.
Qed.

Lemma complex_field : field_theory C0 C1 Cadd Cmul Csub Copp Cdiv Cinv eq.
Proof.
  constructor.
  - exact complex_ring.
  - exact C1_neq_C0.
  - reflexivity.
  - intros [x y] H.
    assert (Hd : x * x + y * y <> 0).
    { intros Hz. apply H. apply norm_zero_iff. exact Hz. }
    unfold Cmul, Cinv, C1; simpl. f_equal; field; exact Hd.
Qed.

Add Field complex_field_structure : complex_field.

(** * The instances at the exact division *)

Lemma inverse_exact (rhs : complex) :
  inverse rhs =
  if mpf_eqb (re rhs * re rhs + im rhs * im rhs) 0 then Throw GMP_division_by_zero
  else Ok (Cx (re rhs / (re rhs * re rhs + im rhs * im rhs))
              (- im rhs / (re rhs * re rhs + im rhs * im rhs))).
Proof. reflexivity. Qed.

Lemma gmp_div_exact (this rhs : complex) :
  gmp_div this rhs = (r ← inverse rhs; Ok (Cmul this r)).
Proof. reflexivity. Qed.

Lemma inner_body_exact (z : list complex) (p j : nat) (g : list (list complex)) :
  inner_body z p j g =
  (gpp ← arr_get g (p - 1) (p - 1);
   gpj ← arr_get g (p - 1) j;
   q ← gmp_div gpp gpj;
   zj ← vec_get z j;
   zp ← vec_get z (p - 1);
   r ← gmp_div (q - MP_1)%C (zj - zp)%C;
   arr_set g p j r).
Proof. reflexivity. Qed.

Lemma outer_loop_exact (z : list complex) (N k p : nat) (g : list (list complex)) :
  outer_loop z N (S k) p g =
  (gpp ← arr_get g (p - 1) (p - 1);
   if mpf_ltb (norm gpp) threshold then Ok g
   else g' ← for_loop (N - p) p (inner_body z p) g; outer_loop z N k (S p) g').
Proof. reflexivity. Qed.

Lemma tableau_exact (z u : list complex) :
  tableau z u =
  (g ← first_row u (length z) (new_array (length z));
   outer_loop z (length z) (length z - 1) 1 g).
Proof. reflexivity. Qed.

Lemma coefficients_exact (z u : list complex) :
  coefficients z u =
  (g ← tableau z u; diagonal (length z) g (replicate (length z) C0)).
Proof. reflexivity. Qed.

Lemma pade_approximant_new_exact (z u : list complex) (st : N) :
  pade_approximant_new z u st =
  match g ← tableau z u; diagonal (length z) g (replicate (length z) C0) with
  | Throw e => (Throw e, GMP_default_prec)
  | Ok a' => (Ok (Pade z a'), st)
  end.
Proof. reflexivity. Qed.

(** * The outcome monad and the loops *)

Lemma bind_Ok {A B} (x : A) (k : A -> outcome B) : (Ok x ≫= k) = k x.
Proof. reflexivity. Qed.

Lemma bind_Throw {A B} (e : error) (k : A -> outcome B) : (Throw e ≫= k) = Throw e.
Proof. reflexivity. Qed.

Lemma bind_Ok_inv {A B} (m : outcome A) (k : A -> outcome B) (y : B) :
  (m ≫= k) = Ok y -> exists x, m = Ok x /\ k x = Ok y.
Proof. destruct m as [x|e]; [eauto | discriminate]. Qed.

(** A loop whose body keeps an invariant and does not throw runs to its
    end and establishes the invariant there. *)
Lemma for_loop_invariant {St} (I : nat -> St -> Prop) (body : nat -> St -> outcome St)
    (count start : nat) (s : St) :
  I start s ->
  (forall i t, (start <= i < start + count)%nat -> I i t ->
     exists t', body i t = Ok t' /\ I (S i) t') ->
  exists s', for_loop count start body s = Ok s' /\ I (start + count)%nat s'.
Proof.
  revert start s. induction count as [|n IH]; intros start s H0 Hstep.
  - exists s. rewrite Nat.add_0_r. split; [reflexivity | exact H0].
  - destruct (Hstep start s ltac:(lia) H0) as (t' & Hb & Ht').
    destruct (IH (S start) t' Ht') as (s' & Hl & Hs').
    { intros i t Hi. apply Hstep. lia. }
    exists s'. split.
    + simpl. rewrite Hb. exact Hl.
    + replace (start + S n)%nat with (S start + n)%nat by lia. exact Hs'.
Qed.

(** A loop whose body keeps an invariant up to an iteration [k] at
    which it throws, throws. *)
Lemma for_loop_throws {St} (I : nat -> St -> Prop) (body : nat -> St -> outcome St)
    (e : error) (count start k : nat) (s : St) :
  I start s ->
  (start <= k < start + count)%nat ->
  (forall i t, (start <= i <= k)%nat -> I i t ->
     body i t = Throw e \/ exists t', body i t = Ok t' /\ I (S i) t') ->
  (forall t, I k t -> body k t = Throw e) ->
  for_loop count start body s = Throw e.
Proof.
  revert start s. induction count as [|n IH]; intros start s H0 Hk Hstep Hthrow.
  - lia.
  - simpl. destruct (Hstep start s ltac:(lia) H0) as [Hb | (t' & Hb & Ht')].
    + rewrite Hb. reflexivity.
    + rewrite Hb, bind_Ok.
      destruct (decide (start = k)) as [->|Hne].
      { rewrite (Hthrow s H0) in Hb. discriminate. }
      apply IH; [exact Ht' | lia | | exact Hthrow].
      intros i t Hi. apply Hstep. lia.
Qed.

Lemma for_loop_outcome {St} (I : nat -> St -> Prop) (body : nat -> St -> outcome St)
    (e : error) (count start : nat) (s : St) :
  I start s ->
  (forall i t, (start <= i < start + count)%nat -> I i t ->
     body i t = Throw e \/ exists t', body i t = Ok t' /\ I (S i) t') ->
  for_loop count start body s = Throw e \/
  exists s', for_loop count start body s = Ok s' /\ I (start + count)%nat s'.
Proof.
  revert start s. induction count as [|n IH]; intros start s H0 Hstep.
  - right. exists s. rewrite Nat.add_0_r. split; [reflexivity | exact H0].
  - simpl. destruct (Hstep start s ltac:(lia) H0) as [Hb | (t' & Hb & Ht')].
    + left. rewrite Hb. reflexivity.
    + rewrite Hb, bind_Ok.
      replace (start + S n)%nat with (S start + n)%nat by lia.
      apply IH; [exact Ht'|]. intros i t Hi. apply Hstep. lia.
Qed.

(** * Containers *)

Lemma vec_get_ok (v : vector) (i : nat) :
  (i < length v)%nat -> vec_get v i = Ok (v !!! i).
Proof.
  intros H. unfold vec_get. destruct (lookup_lt_is_Some_2 v i H) as [x Hx].
  rewrite Hx. f_equal. symmetry. apply list_lookup_total_correct. exact Hx.
Qed.

Lemma vec_get_Ok_inv (v : vector) (i : nat) (x : complex) :
  vec_get v i = Ok x -> v !! i = Some x.
Proof. unfold vec_get. destruct (v !! i); congruence. Qed.

Lemma vec_get_lookup (v : vector) (i : nat) (x : complex) :
  v !! i = Some x -> vec_get v i = Ok x.
Proof. unfold vec_get. intros ->. reflexivity. Qed.

Lemma vec_set_ok (v : vector) (i : nat) (x : complex) :
  (i < length v)%nat -> vec_set v i x = Ok (<[i := x]> v).
Proof. intros H. unfold vec_set. destruct (decide _); [reflexivity | contradiction]. Qed.

Lemma arr_get_ok (N : nat) (g : array2) (i j : nat) :
  square N g -> (i < N)%nat -> (j < N)%nat -> arr_get g i j = Ok (entry g i j).
Proof.
  intros [Hl Hr] Hi Hj. unfold entry, arr_get.
  destruct (lookup_lt_is_Some_2 g i ltac:(lia)) as [row Hrow]. rewrite Hrow.
  rewrite vec_get_ok by (rewrite (Hr _ _ Hrow); exact Hj). reflexivity.
Qed.

Lemma arr_set_ok (N : nat) (g : array2) (i j : nat) (x : complex) :
  square N g -> (i < N)%nat -> (j < N)%nat ->
  exists g', arr_set g i j x = Ok g' /\ square N g' /\ entry g' i j = x /\
    forall i' j', i' <> i \/ j' <> j -> arr_get g' i' j' = arr_get g i' j'.
Proof.
  intros [Hl Hr] Hi Hj.
  destruct (lookup_lt_is_Some_2 g i ltac:(lia)) as [row Hrow].
  pose proof (Hr _ _ Hrow) as Hlen.
  exists (<[i := <[j := x]> row]> g). unfold arr_set. rewrite Hrow.
  rewrite vec_set_ok by lia. rewrite bind_Ok. split; [reflexivity|].
  split; [|split].
  - split; [rewrite length_insert; exact Hl|].
    intros i' row' H'. destruct (decide (i = i')) as [<-|Hne].
    + rewrite list_lookup_insert_eq in H' by lia. injection H' as <-.
      rewrite length_insert. exact Hlen.
    + rewrite list_lookup_insert_ne in H' by exact Hne. eapply Hr; eauto.
  - unfold entry, arr_get. rewrite list_lookup_insert_eq by lia.
    unfold vec_get. rewrite list_lookup_insert_eq by lia. reflexivity.
  - intros i' j' Hd. unfold arr_get. destruct (decide (i = i')) as [<-|Hne].
    + rewrite list_lookup_insert_eq by lia. rewrite Hrow.
      unfold vec_get. rewrite list_lookup_insert_ne by (destruct Hd; congruence).
      reflexivity.
    + rewrite list_lookup_insert_ne by exact Hne. reflexivity.
Qed.

Lemma entry_eq (g g' : array2) (i j : nat) :
  arr_get g i j = arr_get g' i j -> entry g i j = entry g' i j.
Proof. unfold entry. intros ->. reflexivity. Qed.

Lemma new_array_square (N : nat) : square N (new_array N).
Proof.
  unfold new_array. split; [apply length_replicate|].
  intros i row H. apply lookup_replicate in H as [-> _]. apply length_replicate.
Qed.

Lemma new_array_entry (N i j : nat) : entry (new_array N) i j = C0.
Proof.
  unfold entry, arr_get, new_array.
  destruct (replicate N (replicate N MP_0) !! i) as [row|] eqn:H; [|reflexivity].
  apply lookup_replicate in H as [-> _]. unfold vec_get.
  destruct (replicate N MP_0 !! j) as [x|] eqn:H; [|reflexivity].
  apply lookup_replicate in H as [-> _]. reflexivity.
Qed.

(** * The division of [gmp_complex] *)

Lemma inverse_nonzero (x : complex) : x <> C0 -> inverse x = Ok (Cinv x).
Proof.
  intros H. rewrite inverse_exact.
  destruct (mpf_eqb _ 0) eqn:E; [|reflexivity].
  apply mpf_eqb_eq in E. apply norm_zero_iff in E. contradiction.
Qed.

Lemma inverse_zero : inverse C0 = Throw GMP_division_by_zero.
Proof. reflexivity. Qed.

Lemma gmp_div_nonzero (x y : complex) : y <> C0 -> gmp_div x y = Ok (x / y)%C.
Proof. intros H. rewrite gmp_div_exact, inverse_nonzero by exact H. reflexivity. Qed.

Lemma gmp_div_zero (x : complex) : gmp_div x C0 = Throw GMP_division_by_zero.
Proof. reflexivity. Qed.

Lemma Csub_eq_zero (x y : complex) : (x - y)%C = C0 <-> x = y.
Proof.
  split.
  - intros H. transitivity ((x - y) + y)%C; [ring | rewrite H; ring].
  - intros ->. ring.
Qed.

(** * The first row of the tableau *)

Lemma first_row_ok (u_in : vector) (N : nat) :
  (N <= length u_in)%nat ->
  exists g, first_row u_in N (new_array N) = Ok g /\ square N g /\
    (forall j, (j < N)%nat -> entry g 0 j = u_in !!! j) /\
    (forall i j, (1 <= i)%nat -> entry g i j = C0).
Proof.
  intros Hu. unfold first_row.
  destruct (for_loop_invariant
    (fun f g => square N g /\
       (forall j, (j < f)%nat -> entry g 0 j = u_in !!! j) /\
       (forall i j, (1 <= i)%nat -> entry g i j = C0))
    (fun f g => uf ← vec_get u_in f; arr_set g 0 f uf) N 0 (new_array N))
    as (g & Hg & Hsq & Hrow & Hrest).
  - split; [apply new_array_square|]. split; [intros; lia|].
    intros. apply new_array_entry.
  - intros f t Hf (Hsq & Hrow & Hrest).
    rewrite vec_get_ok by lia. rewrite bind_Ok.
    destruct (arr_set_ok N t 0 f (u_in !!! f) Hsq ltac:(lia) ltac:(lia))
      as (t' & Hset & Hsq' & Hnew & Hold).
    exists t'. split; [exact Hset|]. split; [exact Hsq'|]. split.
    + intros j Hj. destruct (decide (j = f)) as [->|Hne]; [exact Hnew|].
      rewrite (entry_eq t' t) by (apply Hold; lia). apply Hrow. lia.
    + intros i j Hi. rewrite (entry_eq t' t) by (apply Hold; lia). apply Hrest, Hi.
  - exists g. auto.
Qed.

Lemma first_row_short (u_in : vector) (N : nat) (g : array2) :
  (length u_in < N)%nat -> square N g ->
  first_row u_in N g = Throw index_out_of_range.
Proof.
  intros Hu Hsq. unfold first_row.
  apply (for_loop_throws (fun f g => square N g) _ _ N 0 (length u_in)).
  - exact Hsq.
  - lia.
  - intros f t Hf Ht. destruct (decide (f = length u_in)) as [->|Hne].
    + left. unfold vec_get. rewrite lookup_ge_None_2 by lia. reflexivity.
    + right. rewrite vec_get_ok by lia. rewrite bind_Ok.
      destruct (arr_set_ok N t 0 f (u_in !!! f) Ht ltac:(lia) ltac:(lia))
        as (t' & Hset & Hsq' & _). eauto.
  - intros t _. unfold vec_get. rewrite lookup_ge_None_2 by lia. reflexivity.
Qed.

(** * One row of the tableau *)

Lemma divides_dec (z : vector) (p : nat) (g : array2) (j : nat) :
  divides z p g j \/ ~ divides z p g j.
Proof.
  unfold divides.
  destruct (Ceqb (entry g (p - 1) j) C0) eqn:E1.
  { apply Ceqb_eq in E1. right. tauto. }
  destruct (Ceqb (z !!! j) (z !!! (p - 1)%nat)) eqn:E2.
  { apply Ceqb_eq in E2. right. tauto. }
  left. split; intros H; apply Ceqb_eq in H; congruence.
Qed.

Section inner_loop.
Context (z : vector) (p : nat) (g : array2).
Context (Hp : (1 <= p < length z)%nat) (Hsq : square (length z) g).

Lemma inner_body_reads (j : nat) (t : array2) :
  (p <= j < length z)%nat -> inner_inv z p g j t ->
  inner_body z p j t =
    (q ← gmp_div (entry g (p - 1) (p - 1)) (entry g (p - 1) j);
     r ← gmp_div (q - MP_1)%C (z !!! j - z !!! (p - 1)%nat)%C;
     arr_set t p j r).
Proof using Hp Hsq.
  intros Hj (Ht & _ & Hrows). rewrite inner_body_exact.
  rewrite !Hrows by lia.
  rewrite !(arr_get_ok (length z) g) by (exact Hsq || lia). rewrite !bind_Ok.
  destruct (gmp_div _ _) as [q|e]; [|reflexivity]. rewrite !bind_Ok.
  rewrite !vec_get_ok by lia. reflexivity.
Qed.

Lemma inner_body_ok (j : nat) (t : array2) :
  (p <= j < length z)%nat -> inner_inv z p g j t -> divides z p g j ->
  exists t', inner_body z p j t = Ok t' /\ inner_inv z p g (S j) t'.
Proof using Hp Hsq.
  intros Hj Hinv [Hg Hd]. rewrite (inner_body_reads j t Hj Hinv).
  destruct Hinv as (Ht & Hdone & Hrows).
  rewrite gmp_div_nonzero by exact Hg. rewrite bind_Ok.
  rewrite gmp_div_nonzero by (rewrite Csub_eq_zero; exact Hd). rewrite bind_Ok.
  destruct (arr_set_ok (length z) t p j (quotient z p g j) Ht ltac:(lia) ltac:(lia))
    as (t' & Hset & Hsq' & Hnew & Hold).
  exists t'. split; [exact Hset|]. split; [exact Hsq'|]. split.
  - intros k Hk. destruct (decide (k = j)) as [->|Hne]; [exact Hnew|].
    rewrite (entry_eq t' t) by (apply Hold; lia). apply Hdone. lia.
  - intros i k Hik. rewrite Hold by lia. apply Hrows. lia.
Qed.

Lemma inner_body_throws (j : nat) (t : array2) :
  (p <= j < length z)%nat -> inner_inv z p g j t -> ~ divides z p g j ->
  inner_body z p j t = Throw GMP_division_by_zero.
Proof using Hp Hsq.
  intros Hj Hinv Hnd. rewrite (inner_body_reads j t Hj Hinv).
  destruct (Ceqb (entry g (p - 1) j) C0) eqn:E1.
  { apply Ceqb_eq in E1. rewrite E1. reflexivity. }
  assert (Hg : entry g (p - 1) j <> C0).
  { intros H. apply Ceqb_eq in H. congruence. }
  rewrite gmp_div_nonzero by exact Hg. rewrite bind_Ok.
  assert (Hy : (z !!! j - z !!! (p - 1)%nat)%C = C0).
  { apply Csub_eq_zero. destruct (Ceqb (z !!! j) (z !!! (p - 1)%nat)) eqn:E2.
    - apply Ceqb_eq in E2. exact E2.
    - exfalso. apply Hnd. split; [exact Hg|]. intros H. apply Ceqb_eq in H. congruence. }
  rewrite Hy. reflexivity.
Qed.

Lemma inner_inv_start : inner_inv z p g p g.
Proof using Hp Hsq. split; [exact Hsq|]. split; [intros; lia | reflexivity]. Qed.

(** The loop over [j] either fills the whole row or throws at the
    first column at which a division is by zero. *)
Lemma inner_loop_outcome :
  for_loop (length z - p) p (inner_body z p) g = Throw GMP_division_by_zero \/
  exists g', for_loop (length z - p) p (inner_body z p) g = Ok g' /\
    inner_inv z p g (length z) g'.
Proof using Hp Hsq.
  destruct (for_loop_outcome (inner_inv z p g) (inner_body z p)
    GMP_division_by_zero (length z - p) p g inner_inv_start) as [Ht | (g' & Hl & Hi)].
  - intros i t Hi Hinv. destruct (divides_dec z p g i) as [Hdv|Hdv].
    + right. apply inner_body_ok; [lia | exact Hinv | exact Hdv].
    + left. apply inner_body_throws; [lia | exact Hinv | exact Hdv].
  - left. exact Ht.
  - right. exists g'. replace (p + (length z - p))%nat with (length z) in Hi by lia. auto.
Qed.

Lemma inner_loop_throws (j : nat) :
  (p <= j < length z)%nat -> ~ divides z p g j ->
  for_loop (length z - p) p (inner_body z p) g = Throw GMP_division_by_zero.
Proof using Hp Hsq.
  intros Hj Hnd.
  apply (for_loop_throws (inner_inv z p g) _ _ (length z - p) p j);
    [apply inner_inv_start | lia | |].
  - intros i t Hi Hinv. destruct (divides_dec z p g i) as [Hd|Hd].
    + right. apply inner_body_ok; [lia | exact Hinv | exact Hd].
    + left. apply inner_body_throws; [lia | exact Hinv | exact Hd].
  - intros t Hinv. apply inner_body_throws; [lia | exact Hinv | exact Hnd].
Qed.

Lemma inner_loop_Ok_divides (g' : array2) :
  for_loop (length z - p) p (inner_body z p) g = Ok g' ->
  (forall j, (p <= j < length z)%nat -> divides z p g j) /\
  inner_inv z p g (length z) g'.
Proof using Hp Hsq.
  intros Hl. split.
  - intros j Hj. destruct (divides_dec z p g j) as [H|H]; [exact H|].
    rewrite (inner_loop_throws j Hj H) in Hl. discriminate.
  - destruct inner_loop_outcome as [Ht | (g'' & Hl' & Hinv)]; congruence.
Qed.
End inner_loop.

(** * The rows of the tableau *)

Lemma reaches_filled (z u : vector) (p : nat) (g : array2) :
  reaches z u p g -> filled z u p g.
Proof.
  induction 1 as [g H1 | p g g' Hr IH Hp Hd Hl].
  - destruct (decide (length z <= length u)%nat) as [Hu|Hu].
    + destruct (first_row_ok u (length z) Hu) as (g1 & Hg1 & Hsq & Hrow & Hrest).
      assert (g1 = g) as -> by congruence.
      constructor;
        [exact Hsq | exact Hu | lia | exact Hrow | intros; lia | intros; lia | exact Hrest].
    + rewrite first_row_short in H1 by (lia || apply new_array_square). discriminate.
  - destruct IH as [Hsq Hu Hrange H0 Hrows Hdiag Hzero].
    destruct (inner_loop_Ok_divides z p g ltac:(lia) Hsq g' Hl) as (Hall & Hsq' & Hnew & Hold).
    assert (Heq : forall i k, i <> p -> entry g' i k = entry g i k).
    { intros i k Hi. apply entry_eq, Hold. lia. }
    constructor.
    + exact Hsq'.
    + exact Hu.
    + lia.
    + intros j Hj. rewrite Heq by lia. apply H0, Hj.
    + intros q j Hq Hj. destruct (decide (q = p)) as [->|Hne].
      * unfold divides, quotient.
        rewrite (Heq (p - 1)%nat j), (Heq (p - 1)%nat (p - 1)%nat) by lia.
        split; [apply Hall; lia|]. rewrite Hnew by lia. reflexivity.
      * destruct (Hrows q j ltac:(lia) Hj) as [Hdv Hq'].
        unfold divides, quotient in *.
        rewrite (Heq (q - 1)%nat j), (Heq (q - 1)%nat (q - 1)%nat), (Heq q j) by lia.
        split; assumption.
    + intros q Hq. destruct (decide (q = p)) as [->|Hne].
      * rewrite Heq by lia. exact Hd.
      * rewrite Heq by lia. apply Hdiag. lia.
    + intros i j Hi. rewrite Heq by lia. apply Hzero. lia.
Qed.

Lemma outer_loop_unfold (z : vector) (N k p : nat) (g : array2) :
  square N g -> (1 <= p <= N)%nat ->
  outer_loop z N (S k) p g =
    if mpf_ltb (norm (entry g (p - 1) (p - 1))) threshold then Ok g
    else g' ← for_loop (N - p) p (inner_body z p) g; outer_loop z N k (S p) g'.
Proof.
  intros Hsq Hp. rewrite outer_loop_exact, (arr_get_ok N) by (exact Hsq || lia).
  reflexivity.
Qed.

(** The constructor's tableau is what the loop over [p] makes of any
    tableau it reaches. *)
Lemma tableau_from (z u : vector) (p : nat) (g : array2) :
  reaches z u p g ->
  tableau z u = outer_loop z (length z) (length z - p) p g.
Proof.
  induction 1 as [g H1 | p g g' Hr IH Hp Hd Hl].
  - rewrite tableau_exact, H1. reflexivity.
  - rewrite IH. apply reaches_filled in Hr. destruct Hr as [Hsq _ Hrange _ _ _ _].
    replace (length z - p)%nat with (S (length z - S p)) by lia.
    rewrite outer_loop_unfold by (exact Hsq || lia).
    rewrite Hd, Hl. reflexivity.
Qed.

Lemma tableau_stops (z u : vector) (p : nat) (g : array2) :
  reaches z u p g -> stops z p g -> tableau z u = Ok g.
Proof.
  intros Hr Hs. rewrite (tableau_from z u p g Hr).
  apply reaches_filled in Hr. destruct Hr as [Hsq _ Hrange _ _ _ _].
  destruct (decide (length z <= p)%nat) as [Hle|Hlt].
  - replace (length z - p)%nat with 0%nat by lia. reflexivity.
  - destruct Hs as [Hs|Hs]; [lia|].
    replace (length z - p)%nat with (S (length z - S p)) by lia.
    rewrite outer_loop_unfold by (exact Hsq || lia). rewrite Hs. reflexivity.
Qed.

Lemma outer_loop_outcome (z u : vector) (count p : nat) (g : array2) :
  reaches z u p g -> count = (length z - p)%nat ->
  outer_loop z (length z) count p g = Throw GMP_division_by_zero \/
  exists p' g', outer_loop z (length z) count p g = Ok g' /\
    (p <= p')%nat /\ reaches z u p' g' /\ stops z p' g'.
Proof.
  revert p g. induction count as [|k IH]; intros p g Hr Hc.
  - right. exists p, g. split; [reflexivity|]. split; [lia|]. split; [exact Hr|].
    left. lia.
  - pose proof (reaches_filled _ _ _ _ Hr) as [Hsq _ Hrange _ _ _ _].
    rewrite outer_loop_unfold by (exact Hsq || lia).
    destruct (mpf_ltb _ threshold) eqn:Hd.
    { right. exists p, g. split; [reflexivity|]. split; [lia|]. split; [exact Hr|].
      right. exact Hd. }
    destruct (inner_loop_outcome z p g ltac:(lia) Hsq) as [Ht | (g' & Hl & _)].
    + left. rewrite Ht. reflexivity.
    + rewrite Hl, bind_Ok.
      destruct (IH (S p) g') as [Ht | (p' & gf & Ho & Hle & Hr' & Hs)].
      * eapply reaches_next; eauto. lia.
      * lia.
      * left. exact Ht.
      * right. exists p', gf. split; [exact Ho|]. split; [lia|]. auto.
Qed.

(** The constructor's tableau, when the sample values are long enough:
    a division by zero, or a tableau at which the loop over [p] stops. *)
Lemma tableau_outcome (z u : vector) :
  (length z <= length u)%nat ->
  tableau z u = Throw GMP_division_by_zero \/
  exists p g, tableau z u = Ok g /\ reaches z u p g /\ stops z p g.
Proof.
  intros Hu. destruct (first_row_ok u (length z) Hu) as (g1 & Hg1 & _).
  assert (Hr : reaches z u 1 g1) by (constructor; exact Hg1).
  rewrite (tableau_from z u 1 g1 Hr).
  destruct (outer_loop_outcome z u (length z - 1) 1 g1 Hr eq_refl)
    as [Ht | (p & g & Ho & _ & Hr' & Hs)]; [left; exact Ht|].
  right. exists p, g. auto.
Qed.

Lemma tableau_short (z u : vector) :
  (length u < length z)%nat -> tableau z u = Throw index_out_of_range.
Proof.
  intros Hu. rewrite tableau_exact.
  rewrite first_row_short by (exact Hu || apply new_array_square). reflexivity.
Qed.

Lemma tableau_Ok_inv (z u : vector) (g : array2) :
  tableau z u = Ok g -> exists p, reaches z u p g /\ stops z p g.
Proof.
  intros Hg. destruct (decide (length z <= length u)%nat) as [Hu|Hu].
  - destruct (tableau_outcome z u Hu) as [Ht | (p & g' & Hg' & Hr & Hs)].
    + congruence.
    + exists p. assert (g' = g) as <- by congruence. auto.
  - rewrite tableau_short in Hg by lia. discriminate.
Qed.

(** * The coefficients *)

Lemma diagonal_ok (N : nat) (g : array2) (a0 : vector) :
  square N g -> length a0 = N ->
  exists a', diagonal N g a0 = Ok a' /\ length a' = N /\
    forall j, (j < N)%nat -> a' !! j = Some (entry g j j).
Proof.
  intros Hsq Ha. unfold diagonal.
  destruct (for_loop_invariant
    (fun j (a : vector) => length a = N /\
       forall k, (k < j)%nat -> a !! k = Some (entry g k k))
    (fun j a => gj ← arr_get g j j; vec_set a j gj) N 0 a0)
    as (a' & Hl & Hlen & Hget).
  - split; [exact Ha | intros; lia].
  - intros j t Hj (Hlen & Hget).
    rewrite (arr_get_ok N) by (exact Hsq || lia). rewrite bind_Ok.
    rewrite vec_set_ok by lia. eexists. split; [reflexivity|].
    split; [rewrite length_insert; exact Hlen|].
    intros k Hk. destruct (decide (k = j)) as [->|Hne].
    + apply list_lookup_insert_eq. lia.
    + rewrite list_lookup_insert_ne by congruence. apply Hget. lia.
  - exists a'. auto.
Qed.

Lemma constructor_Ok (z u : vector) (g : array2) :
  tableau z u = Ok g ->
  exists a', (forall st, pade_approximant_new z u st = (Ok (Pade z a'), st)) /\
    length a' = length z /\
    forall j, (j < length z)%nat -> a' !! j = Some (entry g j j).
Proof.
  intros Hg. destruct (tableau_Ok_inv z u g Hg) as (p & Hr & _).
  apply reaches_filled in Hr. destruct Hr as [Hsq _ _ _ _ _ _].
  destruct (diagonal_ok (length z) g (replicate (length z) C0) Hsq)
    as (a' & Hd & Hlen & Hget); [apply length_replicate|].
  exists a'. split; [|auto].
  intros st. rewrite pade_approximant_new_exact, Hg, bind_Ok, Hd. reflexivity.
Qed.

Lemma constructor_Throw (z u : vector) (e : error) (st : N) :
  tableau z u = Throw e ->
  pade_approximant_new z u st = (Throw e, GMP_default_prec).
Proof. intros Hg. rewrite pade_approximant_new_exact, Hg. reflexivity. Qed.

Lemma constructor_Ok_inv (z u : vector) (st st' : N) (P : pade_approximant) :
  pade_approximant_new z u st = (Ok P, st') ->
  exists g, tableau z u = Ok g /\ st' = st /\ z_in P = z /\ length (a P) = length z /\
    forall j, (j < length z)%nat -> a P !! j = Some (entry g j j).
Proof.
  intros H. destruct (tableau z u) as [g|e] eqn:Hg.
  - destruct (constructor_Ok z u g Hg) as (a' & Hnew & Hlen & Hget).
    rewrite Hnew in H. injection H as <- <-. exists g. simpl. auto.
  - rewrite (constructor_Throw z u e st Hg) in H. discriminate.
Qed.

(** * Truncation *)

(** C4: when the loop over [p] arrives at a step [p] in [1 .. N-1] at
    which the squared magnitude of [g(p-1, p-1)] is below [1e-20], the
    recursion stops: the tableau of the constructor is the one reached,
    its rows from [p] on are zero, and the constructor returns an
    approximant whose coefficients [a(j)], [j >= p], are zero. *)
Theorem truncation_zeroes_coefficients (z u : vector) (p : nat) (g : array2) :
  reaches z u p g ->
  (1 <= p < length z)%nat ->
  norm (entry g (p - 1) (p - 1)) < threshold ->
  tableau z u = Ok g /\
  (forall i j, (p <= i < length z)%nat -> (j < length z)%nat -> arr_get g i j = Ok MP_0) /\
  exists P, (forall st, pade_approximant_new z u st = (Ok P, st)) /\
    z_in P = z /\ length (a P) = length z /\
    forall j, (p <= j < length z)%nat -> a P !! j = Some C0.
Proof.
  intros Hr Hp Hlt.
  assert (Hg : tableau z u = Ok g).
  { apply (tableau_stops z u p g Hr). right. apply mpf_ltb_lt. exact Hlt. }
  destruct (reaches_filled z u p g Hr) as [Hsq _ _ _ _ _ Hzero].
  split; [exact Hg|]. split.
  - intros i j Hi Hj. rewrite (arr_get_ok (length z)) by (exact Hsq || lia).
    rewrite Hzero by lia. reflexivity.
  - destruct (constructor_Ok z u g Hg) as (a' & Hnew & Hlen & Hget).
    exists (Pade z a'). split; [exact Hnew|]. split; [reflexivity|]. split; [exact Hlen|].
    intros j Hj. simpl. rewrite Hget by lia. rewrite Hzero by lia. reflexivity.
Qed.

Lemma truncation_zeroes_coefficients_witness :
  tableau (vZ [0; 1]%Z) (vZ [0; 1]%Z) = Ok [vZ [0; 1]%Z; [MP_0; MP_0]] /\
  (forall i j, (1 <= i < length (vZ [0; 1]%Z))%nat -> (j < length (vZ [0; 1]%Z))%nat ->
     arr_get [vZ [0; 1]%Z; [MP_0; MP_0]] i j = Ok MP_0) /\
  exists P, (forall st, pade_approximant_new (vZ [0; 1]%Z) (vZ [0; 1]%Z) st = (Ok P, st)) /\
    z_in P = vZ [0; 1]%Z /\ length (a P) = length (vZ [0; 1]%Z) /\
    forall j, (1 <= j < length (vZ [0; 1]%Z))%nat -> a P !! j = Some C0.
Proof.
  apply (truncation_zeroes_coefficients (vZ [0; 1]%Z) (vZ [0; 1]%Z) 1
           [vZ [0; 1]%Z; [MP_0; MP_0]]).
  - apply reaches_first. reflexivity.
  - simpl. lia.
  - vm_compute. reflexivity.
Defined.

(** * Division by zero *)

(** C6: [inverse] throws exactly when the squared magnitude of its
    operand is zero and returns the conjugate over the squared magnitude
    otherwise; and when either inverse taken in the body of the loop
    over [j] throws at a step the loop over [p] reaches without
    truncating, the constructor throws and returns no approximant. *)
Theorem inverse_failure_aborts_construction :
  (forall x, inverse x = Throw GMP_division_by_zero <-> norm x = 0) /\
  (forall x, norm x <> 0 -> inverse x = Ok (Cx (re x / norm x) (- im x / norm x))) /\
  (forall z u p g j st,
     reaches z u p g ->
     (p <= j < length z)%nat ->
     ~ norm (entry g (p - 1) (p - 1)) < threshold ->
     inverse (entry g (p - 1) j) = Throw GMP_division_by_zero \/
     inverse (z !!! j - z !!! (p - 1)%nat)%C = Throw GMP_division_by_zero ->
     pade_approximant_new z u st = (Throw GMP_division_by_zero, GMP_default_prec)).
Proof.
  assert (Hinv : forall x, inverse x = Throw GMP_division_by_zero <-> norm x = 0).
  { intros x. rewrite inverse_exact. fold (norm x). destruct (mpf_eqb (norm x) 0) eqn:E.
    - apply mpf_eqb_eq in E. tauto.
    - apply mpf_eqb_neq in E. split; [discriminate | intros H; contradiction]. }
  split; [exact Hinv|]. split.
  - intros x Hx. rewrite inverse_exact. fold (norm x).
    destruct (mpf_eqb (norm x) 0) eqn:E; [|reflexivity].
    apply mpf_eqb_eq in E. contradiction.
  - intros z u p g j st Hr Hj Hge Hthrow.
    apply constructor_Throw. rewrite (tableau_from z u p g Hr).
    destruct (reaches_filled z u p g Hr) as [Hsq _ Hrange _ _ _ _].
    replace (length z - p)%nat with (S (length z - S p)) by lia.
    rewrite outer_loop_unfold by (exact Hsq || lia).
    apply mpf_ltb_ge in Hge. rewrite Hge.
    rewrite (inner_loop_throws z p g ltac:(lia) Hsq j Hj); [reflexivity|].
    intros [Hg Hz]. destruct Hthrow as [H|H]; apply Hinv, norm_zero_iff in H.
    + contradiction.
    + apply -> Csub_eq_zero in H. contradiction.
Qed.

Lemma inverse_failure_aborts_construction_witness :
  pade_approximant_new (vZ [1; 1]%Z) (vZ [1; 1]%Z) 64%N =
    (Throw GMP_division_by_zero, GMP_default_prec).
Proof.
  apply (proj2 (proj2 inverse_failure_aborts_construction)
           (vZ [1; 1]%Z) (vZ [1; 1]%Z) 1%nat [vZ [1; 1]%Z; [MP_0; MP_0]] 1%nat 64%N).
  - apply reaches_first. reflexivity.
  - simpl. lia.
  - apply Qcle_not_lt. vm_compute. discriminate.
  - right. reflexivity.
Defined.

(** * Deciding equalities of results *)

#[global] Instance complex_eq_dec : EqDecision complex.
Proof.
  intros x y. destruct (Ceqb x y) eqn:E.
  - left. apply Ceqb_eq. exact E.
  - right. intros H. apply Ceqb_eq in H. congruence.
Defined.

#[global] Instance error_eq_dec : EqDecision error.
Proof. solve_decision. Defined.

#[global] Instance outcome_eq_dec {A} `{EqDecision A} : EqDecision (outcome A).
Proof. solve_decision. Defined.

#[global] Instance pade_approximant_eq_dec : EqDecision pade_approximant.
Proof. solve_decision. Defined.

#[global] Instance dcomplex_eq_dec : EqDecision dcomplex.
Proof. solve_decision. Defined.

#[global] Instance access_eq_dec : EqDecision access.
Proof. solve_decision. Defined.

#[global] Instance traced_eq_dec {A} `{EqDecision A} : EqDecision (traced A).
Proof. solve_decision. Defined.

(** Closes a decidable goal on concrete data by evaluating its decision. *)
Ltac by_evaluation :=
  apply (bool_decide_unpack _); vm_compute; exact I.

(** * Duplicate points *)




(** * The default precision *)

(** C8: entered with any default precision [st], the constructor
    computes the coefficients at [GMP_default_prec], the precision it
    sets before it builds the tableau.  When the construction completes
    it returns these coefficients and leaves the default precision at
    [st], the value it found.  When [inverse] throws the division by
    zero, the constructor throws it and leaves the default precision at
    [GMP_default_prec]. *)
Theorem precision_restored_unless_thrown (quot : division) (z u : vector) (st : N) :
  match coefficients_with quot GMP_default_prec z u with
  | Ok a' => pade_approximant_new_with quot z u st = (Ok (Pade z a'), st)
  | Throw GMP_division_by_zero =>
      pade_approximant_new_with quot z u st =
        (Throw GMP_division_by_zero, GMP_default_prec)
  | Throw index_out_of_range => True
  end.
Proof.
  unfold pade_approximant_new_with, coefficients_with.
  cbv zeta. unfold mpf_set_default_prec, mpf_get_default_prec.
  destruct (g ← tableau_with quot GMP_default_prec z u;
            diagonal (length z) g (replicate (length z) C0)) as [a'|[|]];
    [reflexivity | reflexivity | exact I].
Qed.

Lemma precision_restored_unless_thrown_witness :
  pade_approximant_new_with mpf_div_truncated (vZ [1; 1]%Z) (vZ [1; 1]%Z) 64%N =
    (Throw GMP_division_by_zero, GMP_default_prec) /\
  exists a',
    pade_approximant_new_with mpf_div_truncated (vZ [1; 2]%Z) (vZ [3; 5]%Z) 64%N =
      (Ok (Pade (vZ [1; 2]%Z) a'), 64%N) /\
    coefficients_with mpf_div_truncated GMP_default_prec (vZ [1; 2]%Z) (vZ [3; 5]%Z) = Ok a' /\
    coefficients_with mpf_div_truncated 64%N (vZ [1; 2]%Z) (vZ [3; 5]%Z) <> Ok a'.
Proof.
  split.
  - pose proof (precision_restored_unless_thrown mpf_div_truncated
                  (vZ [1; 1]%Z) (vZ [1; 1]%Z) 64%N) as H.
    replace (coefficients_with mpf_div_truncated GMP_default_prec (vZ [1; 1]%Z) (vZ [1; 1]%Z))
      with (@Throw (list complex) GMP_division_by_zero) in H by (vm_compute; reflexivity).
    exact H.
  - pose proof (precision_restored_unless_thrown mpf_div_truncated
                  (vZ [1; 2]%Z) (vZ [3; 5]%Z) 64%N) as H.
    destruct (coefficients_with mpf_div_truncated GMP_default_prec (vZ [1; 2]%Z) (vZ [3; 5]%Z))
      as [a'|e] eqn:E.
    + exists a'. split; [exact H|]. split; [reflexivity|].
      intros E'. rewrite <- E in E'. revert E'. by_evaluation.
    + exfalso. revert E. by_evaluation.
Defined.

(** * The evaluator: its reads *)

Lemma result_bind {A B} (m : traced A) (k : A -> traced B) :
  result (m ≫= k) = (result m ≫= fun x => result (k x)).
Proof. unfold mbind, traced_bind, outcome_bind. destruct (result m); reflexivity. Qed.

Lemma reads_bind {A B} (m : traced A) (k : A -> traced B) (r : access) :
  r ∈ reads (m ≫= k) -> r ∈ reads m \/ exists x, result m = Ok x /\ r ∈ reads (k x).
Proof.
  unfold mbind, traced_bind. destruct (result m) as [x|e]; simpl.
  - rewrite elem_of_app. intros [H|H]; eauto.
  - auto.
Qed.

Lemma result_for_loop {St} (body : nat -> St -> traced St) (count start : nat) (s : St) :
  result (for_loop count start body s) =
  for_loop count start (fun i t => result (body i t)) s.
Proof.
  revert start s. induction count as [|n IH]; intros start s; [reflexivity|].
  simpl. rewrite result_bind. destruct (result (body start s)) as [t|e]; [|reflexivity].
  rewrite !bind_Ok. apply IH.
Qed.

Lemma result_step (P : pade_approximant) (e : complex) (i : nat) (s : accumulators) :
  result (step P e i s) =
  (zi ← vec_get (z_in P) i; ai ← vec_get (a P) (i + 1); Ok (update e zi ai s)).
Proof.
  unfold step. rewrite result_bind.
  change (result (get_z_in P i)) with (vec_get (z_in P) i).
  destruct (vec_get (z_in P) i) as [zi|err] eqn:Hz; [|reflexivity].
  rewrite !bind_Ok, result_bind.
  change (result (get_a P (i + 1))) with (vec_get (a P) (i + 1)).
  destruct (vec_get (a P) (i + 1)) as [ai|err] eqn:Ha; [|reflexivity].
  rewrite !bind_Ok, result_bind.
  change (result (get_z_in P i)) with (vec_get (z_in P) i). rewrite Hz, bind_Ok.
  rewrite result_bind.
  change (result (get_a P (i + 1))) with (vec_get (a P) (i + 1)). rewrite Ha, bind_Ok.
  reflexivity.
Qed.

Lemma reads_step (P : pade_approximant) (e : complex) (i : nat) (s : accumulators)
    (r : access) :
  r ∈ reads (step P e i s) -> r = read_z_in i \/ r = read_a (i + 1).
Proof.
  unfold step. intros H.
  repeat (apply reads_bind in H as [H | (? & _ & H)];
          [simpl in H; apply list_elem_of_singleton in H; auto|]).
  simpl in H. apply elem_of_nil in H. contradiction.
Qed.

Lemma reads_for_loop (P : pade_approximant) (e : complex) (count start : nat)
    (s : accumulators) (r : access) :
  r ∈ reads (for_loop count start (step P e) s) ->
  exists i, (start <= i < start + count)%nat /\ (r = read_z_in i \/ r = read_a (i + 1)).
Proof.
  revert start s. induction count as [|n IH]; intros start s H.
  - simpl in H. apply elem_of_nil in H. contradiction.
  - simpl in H. apply reads_bind in H as [H | (t & _ & H)].
    + exists start. split; [lia|]. apply (reads_step P e start s), H.
    + destruct (IH _ _ H) as (i & Hi & Hr). exists i. split; [lia | exact Hr].
Qed.

Lemma Evaluate_unfold (P : pade_approximant) (e : complex) :
  Evaluate P e =
  (a0 ← vec_get (a P) 0;
   s ← for_loop (length (a P) - 1) 0 (fun i t => result (step P e i t))
         (Acc (Finite C0) (Finite a0) (Finite C1));
   Ok (A2 s)).
Proof.
  unfold Evaluate, pade_eval. rewrite result_bind.
  change (result (get_a P 0)) with (vec_get (a P) 0).
  destruct (vec_get (a P) 0) as [a0|err]; [|reflexivity].
  rewrite !bind_Ok, result_bind, result_for_loop.
  destruct (for_loop _ _ _ _); reflexivity.
Qed.

Lemma loop_in_bounds (P : pade_approximant) (e : complex) (count start : nat)
    (s : accumulators) :
  (length (a P) <= length (z_in P) + 1)%nat ->
  (start + count + 1 <= length (a P))%nat ->
  exists s', for_loop count start (fun i t => result (step P e i t)) s = Ok s'.
Proof.
  intros Hz Hc.
  destruct (for_loop_invariant (fun _ _ => True)
    (fun i t => result (step P e i t)) count start s I) as (s' & Hs' & _).
  - intros i t Hi _. rewrite result_step.
    rewrite !vec_get_ok by lia. rewrite !bind_Ok. eauto.
  - eauto.
Qed.

(** C9: for an approximant with [N >= 1] coefficients and as many
    points, every read the evaluator performs is inside its vector: the
    evaluator reads [a(0 .. N-1)] and [z_in(0 .. N-2)] only, and returns
    a value.  With [N = 0] its first read, [a(0)], is outside [a].  The
    constructor, given no points, reads and writes nothing out of range
    and returns the empty approximant. *)
Theorem evaluator_reads_in_bounds :
  (forall P e, (1 <= length (a P))%nat -> length (z_in P) = length (a P) ->
     (forall r, r ∈ reads (pade_eval P e) -> in_bounds P r) /\
     exists v, Evaluate P e = Ok v) /\
  (forall P e, length (a P) = 0%nat ->
     pade_eval P e = Traced [read_a 0] (Throw index_out_of_range)) /\
  (forall u st, pade_approximant_new [] u st = (Ok (Pade [] []), st)).
Proof.
  split; [|split].
  - intros P e HN Hz. split.
    + intros r Hr. unfold pade_eval in Hr.
      apply reads_bind in Hr as [Hr | (a0 & _ & Hr)].
      { simpl in Hr. apply list_elem_of_singleton in Hr as ->. simpl. lia. }
      apply reads_bind in Hr as [Hr | (s & _ & Hr)].
      * apply reads_for_loop in Hr as (i & Hi & [-> | ->]); simpl; lia.
      * simpl in Hr. apply elem_of_nil in Hr. contradiction.
    + rewrite Evaluate_unfold. rewrite vec_get_ok by lia. rewrite bind_Ok.
      destruct (loop_in_bounds P e (length (a P) - 1) 0
        (Acc (Finite C0) (Finite (a P !!! 0%nat)) (Finite C1))) as (s & Hs); [lia | lia|].
      rewrite Hs. eauto.
  - intros P e HN. unfold pade_eval, get_a.
    destruct (a P) as [|x l]; [reflexivity | discriminate].
  - intros u st. reflexivity.
Qed.

Lemma evaluator_reads_in_bounds_witness :
  (forall r, r ∈ reads (pade_eval (Pade (vZ [1; 2; 3]%Z) (vZ [1; 4; 9]%Z)) (CQ 4)) ->
     in_bounds (Pade (vZ [1; 2; 3]%Z) (vZ [1; 4; 9]%Z)) r) /\
  exists v, Evaluate (Pade (vZ [1; 2; 3]%Z) (vZ [1; 4; 9]%Z)) (CQ 4) = Ok v.
Proof.
  apply (proj1 evaluator_reads_in_bounds (Pade (vZ [1; 2; 3]%Z) (vZ [1; 4; 9]%Z)) (CQ 4)).
  - simpl. lia.
  - reflexivity.
Defined.

(** * The evaluator: the last point *)

Lemma traced_bind_unfold {A B} (m : traced A) (k : A -> traced B) :
  (m ≫= k) =
  match result m with
  | Ok x => Traced (reads m ++ reads (k x)) (result (k x))
  | Throw e => Traced (reads m) (Throw e)
  end.
Proof. reflexivity. Qed.

Lemma traced_bind_ext {A B} (m : traced A) (k k' : A -> traced B) :
  (forall x, k x = k' x) -> (m ≫= k) = (m ≫= k').
Proof.
  intros H. rewrite !traced_bind_unfold.
  destruct (result m) as [x|e]; [rewrite H|]; reflexivity.
Qed.

Lemma traced_for_loop_ext {St} (body body' : nat -> St -> traced St)
    (count start : nat) (s : St) :
  (forall i t, (start <= i < start + count)%nat -> body i t = body' i t) ->
  for_loop count start body s = for_loop count start body' s.
Proof.
  revert start s. induction count as [|n IH]; intros start s H; [reflexivity|].
  simpl. rewrite (H start s) by lia. rewrite !traced_bind_unfold.
  destruct (result (body' start s)) as [t|e]; [|reflexivity].
  rewrite (IH (S start) t); [reflexivity|]. intros i t' Hi. apply H. lia.
Qed.

(** C10: two approximants with the same coefficients whose points agree
    at the indices [0 .. N-2] are read at the same places by the
    evaluator and give the same value at every query point: the last
    point [z_in(N-1)] is never read. *)
Theorem evaluator_ignores_last_point (P Q : pade_approximant) (e : complex) :
  a P = a Q ->
  (forall i, (i + 2 <= length (a P))%nat -> z_in P !! i = z_in Q !! i) ->
  pade_eval P e = pade_eval Q e.
Proof.
  intros Ha Hz. unfold pade_eval.
  assert (Hstep : forall i t, (0 <= i < 0 + (length (a P) - 1))%nat ->
            step P e i t = step Q e i t).
  { intros i t Hi. unfold step, get_z_in, get_a, vec_get.
    rewrite Ha, (Hz i) by lia. reflexivity. }
  replace (get_a Q 0) with (get_a P 0) by (unfold get_a; rewrite Ha; reflexivity).
  rewrite <- Ha. apply traced_bind_ext. intros a0.
  rewrite (traced_for_loop_ext _ _ _ _ _ Hstep). reflexivity.
Qed.

Lemma evaluator_ignores_last_point_witness :
  pade_eval (Pade (vZ [1; 2; 3]%Z) (vZ [1; 4; 9]%Z)) (CQ 4) =
  pade_eval (Pade (vZ [1; 2; 7]%Z) (vZ [1; 4; 9]%Z)) (CQ 4).
Proof.
  apply (evaluator_ignores_last_point
           (Pade (vZ [1; 2; 3]%Z) (vZ [1; 4; 9]%Z))
           (Pade (vZ [1; 2; 7]%Z) (vZ [1; 4; 9]%Z)) (CQ 4)).
  - reflexivity.
  - intros i Hi. simpl in Hi.
    destruct i as [|[|i]]; [reflexivity | reflexivity | lia].
Defined.

(** * The evaluator: its value *)

Lemma Evaluate_reaches (P : pade_approximant) (e : complex) :
  (1 <= length (a P) <= length (z_in P) + 1)%nat ->
  exists s, eval_reaches P e (length (a P) - 1) s /\ Evaluate P e = Ok (A2 s).
Proof.
  intros HN. rewrite Evaluate_unfold. rewrite vec_get_ok by lia. rewrite bind_Ok.
  destruct (for_loop_invariant (eval_reaches P e)
    (fun i t => result (step P e i t)) (length (a P) - 1) 0
    (Acc (Finite C0) (Finite (a P !!! 0%nat)) (Finite C1))) as (s & Hs & Hr).
  - constructor. apply list_lookup_lookup_total_lt. lia.
  - intros i t Hi Ht. rewrite result_step. rewrite !vec_get_ok by lia.
    rewrite !bind_Ok. eexists. split; [reflexivity|].
    apply eval_next; [exact Ht | |]; apply list_lookup_lookup_total_lt; lia.
  - exists s. rewrite Hs. split; [exact Hr | reflexivity].
Qed.

Lemma eval_reaches_functional (P : pade_approximant) (e : complex) (i : nat)
    (s s' : accumulators) :
  eval_reaches P e i s -> eval_reaches P e i s' -> s = s'.
Proof.
  intros H. revert s'. induction H as [a0 H0 | i s zi ai H IH Hz Ha]; intros s' H'.
  - inversion H'; subst. congruence.
  - inversion H' as [|i' t zi' ai' Ht Hz' Ha']; subst.
    rewrite (IH t Ht). congruence.
Qed.

Lemma eval_reaches_range (P : pade_approximant) (e : complex) (i : nat) (s : accumulators) :
  eval_reaches P e i s -> (i < length (a P))%nat.
Proof.
  destruct 1 as [a0 H0 | i s zi ai H Hz Ha].
  - apply lookup_lt_Some in H0. exact H0.
  - apply lookup_lt_Some in Ha. lia.
Qed.

(** A non-finite [A2] stays non-finite to the end of the loop. *)
Lemma nonfinite_absorbing (P : pade_approximant) (e : complex) (j : nat) (s' : accumulators) :
  eval_reaches P e j s' ->
  forall i s, eval_reaches P e i s -> (i <= j)%nat -> A2 s = NonFinite -> A2 s' = NonFinite.
Proof.
  induction 1 as [a0 H0 | j t zi ai H IH Hz Ha]; intros i s Hs Hi Hn.
  - assert (i = 0%nat) as -> by lia.
    rewrite <- (eval_reaches_functional P e 0 _ _ Hs (eval_first P e a0 H0)). exact Hn.
  - destruct (decide (i = S j)) as [->|Hne].
    + rewrite <- (eval_reaches_functional P e (S j) _ _ Hs (eval_next P e j t zi ai H Hz Ha)).
      exact Hn.
    + pose proof (IH i s Hs ltac:(lia) Hn) as Ht.
      unfold update, Anew. simpl. rewrite Ht. reflexivity.
Qed.

(** The evaluator returns a finite value only when no [Bnew] was zero. *)
Lemma finite_value_denominators (P : pade_approximant) (e v : complex) :
  (length (a P) <= length (z_in P) + 1)%nat ->
  Evaluate P e = Ok (Finite v) -> denominators_nonzero P e.
Proof.
  intros HN Hv i s zi ai Hs Hz Ha HB.
  pose proof (lookup_lt_Some _ _ _ Ha) as Hlt.
  destruct (Evaluate_reaches P e ltac:(lia)) as (sf & Hf & He).
  assert (Hn : A2 sf = NonFinite).
  { apply (nonfinite_absorbing P e _ sf Hf (S i) (update e zi ai s)).
    - apply eval_next; assumption.
    - lia.
    - unfold update. simpl. rewrite HB. destruct (Anew e zi ai s); reflexivity. }
  rewrite He, Hn in Hv. discriminate.
Qed.

Lemma update_finite (e zi ai x1 x2 y1 : complex) :
  (C1 + (e - zi) * ai * y1)%C <> C0 ->
  update e zi ai (Acc (Finite x1) (Finite x2) (Finite y1)) =
  Acc (Finite (x2 / (C1 + (e - zi) * ai * y1)))
      (Finite ((x2 + (e - zi) * ai * x1) / (C1 + (e - zi) * ai * y1)))
      (Finite (C1 / (C1 + (e - zi) * ai * y1)))%C.
Proof.
  intros HB.
  assert (E : mpf_eqb (norm (C1 + (e - zi) * ai * y1)%C) 0 = false).
  { apply mpf_eqb_neq. intros H. apply norm_zero_iff in H. contradiction. }
  unfold update, Anew, Bnew. cbn [A1 A2 B1 dadd dmul ddiv].
  rewrite E. reflexivity.
Qed.

(** The algebra of one renormalised step.  With [r] what remains of
    the fraction below the current level and [r'] what remains below the
    next one, the combination of the accumulators that equals the value
    [w] of the whole fraction is kept. *)
Lemma renormalized_step (w x1 x2 y1 c r r' : complex) :
  c = ((C1 + r') * r)%C ->
  (C1 + c * y1)%C <> C0 ->
  (w * (C1 + y1 * r) = x2 + x1 * r)%C ->
  (w * (C1 + C1 / (C1 + c * y1) * r') =
   (x2 + c * x1) / (C1 + c * y1) + x2 / (C1 + c * y1) * r')%C.
Proof.
  intros -> HB H. apply Csub_eq_zero. apply Csub_eq_zero in H.
  transitivity (((C1 + r') / (C1 + (C1 + r') * r * y1)) *
                (w * (C1 + y1 * r) - (x2 + x1 * r)))%C.
  - field. exact HB.
  - rewrite H. ring.
Qed.

(** * The continued fraction *)

Lemma denominator_unfold (x : complex) (z a : vector) (i : nat) (zi ai t : complex) :
  z !! i = Some zi -> a !! (i + 1)%nat = Some ai ->
  denominator x (drop i z) (drop (i + 1) a) = Some t ->
  exists t', denominator x (drop (S i) z) (drop (S i + 1) a) = Some t' /\
    t' <> C0 /\ t = (C1 + (x - zi) * ai / t')%C.
Proof.
  intros Hz Ha. rewrite (drop_S z zi i Hz), (drop_S a ai (i + 1) Ha). simpl.
  destruct (denominator x (drop (S i) z) (drop (S (i + 1)) a)) as [t'|]; [|discriminate].
  simpl. destruct (Ceqb t' C0) eqn:E; [discriminate|]. intros [= <-].
  exists t'. split; [reflexivity|]. split; [|reflexivity].
  intros H. apply Ceqb_eq in H. congruence.
Qed.

Lemma fraction_invariant (P : pade_approximant) (e w : complex) :
  denominators_nonzero P e ->
  continued_fraction e (z_in P) (a P) = Some w ->
  forall i s, eval_reaches P e i s ->
    exists x1 x2 y1 t,
      s = Acc (Finite x1) (Finite x2) (Finite y1) /\
      denominator e (drop i (z_in P)) (drop (i + 1) (a P)) = Some t /\
      (w * (C1 + y1 * (t - C1)) = x2 + x1 * (t - C1))%C.
Proof.
  intros Hnz Hw i s Hs.
  induction Hs as [a0 H0 | i s zi ai Hs IH Hz Ha].
  - unfold continued_fraction in Hw. destruct (a P) as [|a0' a'] eqn:Ea; [discriminate|].
    injection H0 as ->. simpl in Hw.
    destruct (denominator e (z_in P) a') as [t|] eqn:Et; [|discriminate]. simpl in Hw.
    destruct (Ceqb t C0) eqn:E; [discriminate|]. injection Hw as <-.
    assert (Ht : t <> C0) by (intros H; apply Ceqb_eq in H; congruence).
    exists C0, a0, C1, t. split; [reflexivity|]. split; [exact Et|]. field. exact Ht.
  - destruct IH as (x1 & x2 & y1 & t & -> & Ht & Hinv).
    destruct (denominator_unfold e _ _ i zi ai t Hz Ha Ht) as (t' & Ht' & Hne & ->).
    assert (HB : (C1 + (e - zi) * ai * y1)%C <> C0).
    { intros H. apply (Hnz i _ zi ai Hs Hz Ha). unfold Bnew. simpl. rewrite H. reflexivity. }
    rewrite (update_finite e zi ai x1 x2 y1 HB).
    do 4 eexists. split; [reflexivity|]. split; [exact Ht'|].
    apply (renormalized_step w x1 x2 y1 _ (C1 + (e - zi) * ai / t' - C1)%C (t' - C1)%C);
      [field; exact Hne | exact HB | exact Hinv].
Qed.

(** C2 (counterexample): with [z = {0, 1}] and [u = {1, 1/2}] the
    constructor returns the coefficients [{1, 1}]; at the query point
    [1] no [Bnew] is zero and the evaluator returns [1/2], which is
    [u(1)]; the nested expression of the glossary is [2]. *)
Lemma glossary_fraction_differs :
  pade_approximant_new (vZ [0; 1]%Z) [CQ 1; CQ (1 # 2)] 64%N =
    (Ok (Pade (vZ [0; 1]%Z) (vZ [1; 1]%Z)), 64%N) /\
  denominators_nonzero (Pade (vZ [0; 1]%Z) (vZ [1; 1]%Z)) (CQ 1) /\
  Evaluate (Pade (vZ [0; 1]%Z) (vZ [1; 1]%Z)) (CQ 1) = Ok (Finite (CQ (1 # 2))) /\
  glossary_fraction (CQ 1) (vZ [0; 1]%Z) (vZ [1; 1]%Z) = Some (CQ 2) /\
  CQ (1 # 2) <> CQ 2.
Proof.
  assert (He : Evaluate (Pade (vZ [0; 1]%Z) (vZ [1; 1]%Z)) (CQ 1) = Ok (Finite (CQ (1 # 2))))
    by by_evaluation.
  split; [by_evaluation|].
  split; [|split; [exact He | split; by_evaluation]].
  eapply finite_value_denominators; [|exact He]. simpl. lia.
Qed.

(** C2 (amended): at a query point at which no [Bnew] of the recurrence
    is zero and no denominator of the nested expression is zero, the
    evaluator returns the value of
    [a0 / (1 + (x - z0) a1 / (1 + (x - z1) a2 / (1 + ...)))]. *)
Theorem recurrence_is_continued_fraction (P : pade_approximant) (x w : complex) :
  (length (a P) <= length (z_in P) + 1)%nat ->
  denominators_nonzero P x ->
  continued_fraction x (z_in P) (a P) = Some w ->
  Evaluate P x = Ok (Finite w).
Proof.
  intros HN Hnz Hw.
  assert (H1 : (1 <= length (a P))%nat).
  { unfold continued_fraction in Hw. destruct (a P); [discriminate | simpl; lia]. }
  destruct (Evaluate_reaches P x ltac:(lia)) as (s & Hs & He).
  destruct (fraction_invariant P x w Hnz Hw _ s Hs) as (x1 & x2 & y1 & t & -> & Ht & Hinv).
  rewrite He. simpl. do 2 f_equal.
  rewrite (drop_ge (a P)) in Ht by lia. simpl in Ht. injection Ht as <-.
  transitivity (x2 + x1 * (C1 - C1))%C; [ring|]. rewrite <- Hinv. ring.
Qed.

Lemma recurrence_is_continued_fraction_witness :
  Evaluate (Pade (vZ [1; 2; 3]%Z) [CQ 1; CQ (-3 # 4); CQ (11 # 16)]) (CQ 4) =
    Ok (Finite (CQ 19)).
Proof.
  apply (recurrence_is_continued_fraction
           (Pade (vZ [1; 2; 3]%Z) [CQ 1; CQ (-3 # 4); CQ (11 # 16)]) (CQ 4) (CQ 19)).
  - simpl. lia.
  - apply (finite_value_denominators _ _ (CQ 19)); [simpl; lia | by_evaluation].
  - by_evaluation.
Defined.

(** * Constant data *)

Lemma inner_loop_ok (z : vector) (p : nat) (g : array2) :
  (1 <= p < length z)%nat -> square (length z) g ->
  (forall j, (p <= j < length z)%nat -> divides z p g j) ->
  exists g', for_loop (length z - p) p (inner_body z p) g = Ok g' /\
    inner_inv z p g (length z) g'.
Proof.
  intros Hp Hsq Hall.
  destruct (for_loop_invariant (inner_inv z p g) (inner_body z p) (length z - p) p g
    (inner_inv_start z p g Hp Hsq)) as (g' & Hl & Hi).
  - intros j t Hj Hinv. apply inner_body_ok; [exact Hp | exact Hsq | lia | exact Hinv|].
    apply Hall. lia.
  - exists g'. replace (p + (length z - p))%nat with (length z) in Hi by lia. auto.
Qed.



Lemma inverse_with_nonzero (quot : division) (prec : N) (x : complex) :
  x <> C0 -> exists r, inverse_with quot prec x = Ok r.
Proof.
  intros Hx. unfold inverse_with. cbv zeta. fold (norm x).
  destruct (mpf_eqb (norm x) 0) eqn:E; [|eauto].
  exfalso. apply Hx, norm_zero_iff, mpf_eqb_eq, E.
Qed.

Lemma inverse_with_zero (quot : division) (prec : N) (x : complex) :
  inverse_with quot prec x = Throw GMP_division_by_zero <-> x = C0.
Proof.
  split.
  - intros H. destruct (Ceqb x C0) eqn:E; [apply Ceqb_eq; exact E|].
    assert (Hx : x <> C0) by (intros Hx; apply Ceqb_eq in Hx; congruence).
    destruct (inverse_with_nonzero quot prec x Hx) as (r & Hr). congruence.
  - intros ->. reflexivity.
Qed.








(** * Interpolation *)

Lemma renormalized_hold (w x1 x2 y1 c : complex) :
  x2 = w -> (c * x1 = c * w * y1)%C -> (C1 + c * y1)%C <> C0 ->
  ((x2 + c * x1) / (C1 + c * y1) = w)%C /\
  (x2 / (C1 + c * y1) = w * (C1 / (C1 + c * y1)))%C.
Proof.
  intros -> Hc HB. split.
  - rewrite Hc. field. exact HB.
  - field. exact HB.
Qed.

Lemma remainder_at_node (z : vector) (g : array2) (k : nat) : remainder z g k k = C0.
Proof. unfold remainder. ring. Qed.

Section partial_interpolation.
Context (z u : vector) (g : array2) (P : pade_approximant) (p k : nat).
Context (Hfilled : filled z u p g).
Context (Hz : z_in P = z) (Hlen : length (a P) = length z).
Context (Ha : forall j, (j < length z)%nat -> a P !! j = Some (entry g j j)).
Context (Hk : (k < length z)%nat) (Hkp : (k < p)%nat).
Context (Hnz : denominators_nonzero P (z !!! k)).

Lemma partial_remainder_first :
  (u !!! k * (C1 + C1 * remainder z g k 0) = entry g 0 0 + C0 * remainder z g k 0)%C.
Proof using Hfilled Hz Hlen Ha Hk Hkp Hnz.
  destruct Hfilled as [_ _ _ H0 Hrows _ _].
  destruct (decide (k = 0%nat)) as [Hk0|Hne].
  - rewrite Hk0, remainder_at_node, H0 by lia. ring.
  - destruct (Hrows 1%nat k ltac:(lia) ltac:(lia)) as [[Hg Hd] Hq].
    unfold remainder. change (0 + 1)%nat with 1%nat. rewrite Hq. unfold quotient.
    change (1 - 1)%nat with 0%nat in Hg, Hd |- *.
    rewrite (H0 k) in Hg |- * by lia.
    unfold MP_1. fold C1. field.
    split; first [exact Hg | rewrite Csub_eq_zero; exact Hd].
Qed.

Lemma partial_remainder_next (i : nat) :
  (i < k)%nat ->
  ((z !!! k - z !!! i) * entry g (i + 1) (i + 1) =
   (C1 + remainder z g k (i + 1)) * remainder z g k i)%C.
Proof using Hfilled Hz Hlen Ha Hk Hkp Hnz.
  intros Hi. destruct Hfilled as [_ _ _ _ Hrows _ _].
  destruct (decide (i + 1 = k)%nat) as [Hik|Hne].
  - rewrite Hik, remainder_at_node. unfold remainder. rewrite Hik. ring.
  - destruct (Hrows (i + 2)%nat k ltac:(lia) ltac:(lia)) as [[Hg Hd] Hq].
    unfold remainder. replace (i + 1 + 1)%nat with (i + 2)%nat by lia.
    rewrite Hq. unfold quotient.
    replace (i + 2 - 1)%nat with (i + 1)%nat in * by lia.
    unfold MP_1. fold C1. field.
    split; first [exact Hg | rewrite Csub_eq_zero; exact Hd].
Qed.

Lemma partial_interpolation_invariant (i : nat) (s : accumulators) :
  eval_reaches P (z !!! k) i s ->
  exists x1 x2 y1, s = Acc (Finite x1) (Finite x2) (Finite y1) /\
    (((i <= k)%nat /\
      (u !!! k * (C1 + y1 * remainder z g k i) = x2 + x1 * remainder z g k i)%C) \/
     ((k < i)%nat /\ x2 = u !!! k /\ x1 = (u !!! k * y1)%C)).
Proof using Hfilled Hz Hlen Ha Hk Hkp Hnz.
  induction 1 as [a0 H0 | i s zi ai Hs IH Hzi Hai].
  - rewrite Ha in H0 by lia. injection H0 as <-.
    exists C0, (entry g 0 0), C1. split; [reflexivity|]. left. split; [lia|].
    apply partial_remainder_first.
  - destruct IH as (x1 & x2 & y1 & -> & Hinv).
    pose proof (lookup_lt_Some _ _ _ Hai) as Hi.
    assert (HB : (C1 + (z !!! k - zi) * ai * y1)%C <> C0).
    { intros H. apply (Hnz i _ zi ai Hs Hzi Hai). unfold Bnew. simpl. rewrite H.
      reflexivity. }
    rewrite (update_finite _ zi ai x1 x2 y1 HB).
    rewrite Ha in Hai by lia. injection Hai as <-.
    rewrite Hz in Hzi. apply list_lookup_total_correct in Hzi. subst zi.
    do 3 eexists. split; [reflexivity|].
    destruct Hinv as [[Hle Hinv] | (Hlt & H2 & H1)].
    + destruct (decide (i = k)) as [->|Hne].
      * right. split; [lia|]. rewrite remainder_at_node in Hinv.
        apply renormalized_hold; [|ring | exact HB].
        transitivity (u !!! k * (C1 + y1 * C0))%C; [rewrite Hinv|]; ring.
      * left. split; [lia|]. replace (S i) with (i + 1)%nat by lia.
        apply (renormalized_step _ _ _ _ _ (remainder z g k i));
          [apply partial_remainder_next; lia | exact HB | exact Hinv].
    + right. split; [lia|].
      apply renormalized_hold; [exact H2 | rewrite H1; ring | exact HB].
Qed.
End partial_interpolation.

Lemma constructor_coefficients (z u a' : vector) (st : N) :
  coefficients z u = Ok a' -> pade_approximant_new z u st = (Ok (Pade z a'), st).
Proof.
  rewrite coefficients_exact, pade_approximant_new_exact. intros ->. reflexivity.
Qed.

(** C1 (counterexample): the points are pairwise distinct and the
    constructor returns an approximant, yet the evaluator does not return
    the sample value at the last point.  With [z = {0, 1}] and
    [u = {0, 1}] the recursion is truncated at once, the coefficients are
    [{0, 0}] and the value at [z(1)] is [0], not [1].  With
    [z = {0, 1, 2}] and [u = {1, 2, 3}] nothing is truncated, the
    coefficients are [{1, -1/2, 1/2}], and at [z(2)] the first [Bnew] is
    zero, so that the value is not finite. *)
Lemma interpolation_fails :
  (NoDup (vZ [0; 1]%Z) /\
   pade_approximant_new (vZ [0; 1]%Z) (vZ [0; 1]%Z) 64%N =
     (Ok (Pade (vZ [0; 1]%Z) (vZ [0; 0]%Z)), 64%N) /\
   Evaluate (Pade (vZ [0; 1]%Z) (vZ [0; 0]%Z)) (CQ 1) = Ok (Finite (CQ 0)) /\
   CQ 0 <> CQ 1) /\
  (NoDup (vZ [0; 1; 2]%Z) /\
   pade_approximant_new (vZ [0; 1; 2]%Z) (vZ [1; 2; 3]%Z) 64%N =
     (Ok (Pade (vZ [0; 1; 2]%Z) [CQ 1; CQ (-1 # 2); CQ (1 # 2)]), 64%N) /\
   Evaluate (Pade (vZ [0; 1; 2]%Z) [CQ 1; CQ (-1 # 2); CQ (1 # 2)]) (CQ 2) = Ok NonFinite).
Proof. repeat split; by_evaluation. Qed.

(** C1 (amended): an approximant the constructor returns reproduces the
    sample value [u(k)] at the point [z(k)], exactly, when no coefficient
    before [a(k)] has a squared magnitude below [1e-20], that is, when
    the recursion was not truncated before row [k], whatever was
    truncated after it, and no [Bnew] of the evaluator's recurrence is
    zero at [z(k)].  In particular the value at [z(0)] is [u(0)]
    whenever no [Bnew] is zero there.  The arithmetic is exact. *)
Theorem interpolation_before_truncation (z u : vector) (st st' : N)
    (P : pade_approximant) (k : nat) (zk uk : complex) :
  pade_approximant_new z u st = (Ok P, st') ->
  (forall j aj, (j < k)%nat -> a P !! j = Some aj -> ~ norm aj < threshold) ->
  z !! k = Some zk -> u !! k = Some uk ->
  denominators_nonzero P zk ->
  Evaluate P zk = Ok (Finite uk).
Proof.
  intros Hnew Htrunc Hzk Huk Hnz.
  destruct (constructor_Ok_inv z u st st' P Hnew) as (g & Hg & _ & Hz & Hlen & Ha).
  destruct (tableau_Ok_inv z u g Hg) as (p & Hr & Hs).
  pose proof (lookup_lt_Some _ _ _ Hzk) as Hk.
  pose proof (reaches_filled z u p g Hr) as Hf.
  assert (Hp : (k < p)%nat).
  { destruct Hf as [_ _ Hrange _ _ _ _].
    destruct Hs as [Hs|Hs]; [lia|].
    destruct (decide (k < p)%nat) as [Hlt|Hge]; [exact Hlt|]. exfalso.
    apply (Htrunc (p - 1)%nat (entry g (p - 1) (p - 1)) ltac:(lia)).
    - apply Ha. lia.
    - apply mpf_ltb_lt. exact Hs. }
  apply list_lookup_total_correct in Hzk, Huk. subst zk uk.
  destruct (Evaluate_reaches P (z !!! k) ltac:(rewrite Hz; lia)) as (s & Hsf & He).
  destruct (partial_interpolation_invariant z u g P p k Hf Hz Hlen Ha Hk Hp Hnz _ s Hsf)
    as (x1 & x2 & y1 & -> & Hinv).
  rewrite He. simpl. do 2 f_equal.
  destruct Hinv as [[Hle Hinv] | (_ & H2 & _)]; [|exact H2].
  assert (k = (length (a P) - 1)%nat) as Hk' by lia.
  rewrite <- Hk', remainder_at_node in Hinv.
  transitivity (x2 + x1 * C0)%C; [ring|]. rewrite <- Hinv. ring.
Qed.

Lemma interpolation_before_truncation_witness :
  pade_approximant_new (vZ [1; 2; 3]%Z) (vZ [5; 5; 6]%Z) 64%N =
    (Ok (Pade (vZ [1; 2; 3]%Z) (vZ [5; 0; 0]%Z)), 64%N) /\
  Evaluate (Pade (vZ [1; 2; 3]%Z) (vZ [5; 0; 0]%Z)) (CQ 2) = Ok (Finite (CQ 5)).
Proof.
  assert (Hnew : pade_approximant_new (vZ [1; 2; 3]%Z) (vZ [5; 5; 6]%Z) 64%N =
                 (Ok (Pade (vZ [1; 2; 3]%Z) (vZ [5; 0; 0]%Z)), 64%N)) by by_evaluation.
  split; [exact Hnew|].
  apply (interpolation_before_truncation (vZ [1; 2; 3]%Z) (vZ [5; 5; 6]%Z) 64%N 64%N
           (Pade (vZ [1; 2; 3]%Z) (vZ [5; 0; 0]%Z)) 1 (CQ 2) (CQ 5)).
  - exact Hnew.
  - intros j aj Hj Haj. destruct j as [|j]; [|lia].
    injection Haj as <-. apply Qcle_not_lt. vm_compute. discriminate.
  - reflexivity.
  - reflexivity.
  - apply (finite_value_denominators _ _ (CQ 5)); [simpl; lia | by_evaluation].
Defined.

(** * The quadratic scenario *)

(** C3 (counterexample): with [z = {1, 2, 3}] and [u = {1, 4, 9}] the
    constructor returns an approximant whose value at [2.5] is [43/7] and
    whose value at [4] is [19]; neither is within [1e-6] of [6.25] and
    [16]. *)
Lemma quadratic_not_reproduced :
  exists P,
    pade_approximant_new (vZ [1; 2; 3]%Z) (vZ [1; 4; 9]%Z) 64%N = (Ok P, 64%N) /\
    Evaluate P (CQ (5 # 2)) = Ok (Finite (CQ (43 # 7))) /\
    ~ within (1 # 1000000) (CQ (43 # 7)) (CQ (25 # 4)) /\
    Evaluate P (CQ 4) = Ok (Finite (CQ 19)) /\
    ~ within (1 # 1000000) (CQ 19) (CQ 16).
Proof.
  exists (Pade (vZ [1; 2; 3]%Z) [CQ 1; CQ (-3 # 4); CQ (11 # 16)]).
  split; [by_evaluation|]. split; [by_evaluation|].
  split; [apply Qclt_not_le; vm_compute; reflexivity|].
  split; [by_evaluation|]. apply Qclt_not_le; vm_compute; reflexivity.
Qed.

(** C3 (amended): with [z = {1, 2, 3}] and [u = {1, 4, 9}] the
    constructor returns the approximant with coefficients
    [{1, -3/4, 11/16}], whose value is [43/7] at [2.5] and [19] at [4];
    at the three points it returns the sample values. *)
Theorem quadratic_scenario_values (st : N) :
  pade_approximant_new (vZ [1; 2; 3]%Z) (vZ [1; 4; 9]%Z) st =
    (Ok (Pade (vZ [1; 2; 3]%Z) [CQ 1; CQ (-3 # 4); CQ (11 # 16)]), st) /\
  Evaluate (Pade (vZ [1; 2; 3]%Z) [CQ 1; CQ (-3 # 4); CQ (11 # 16)]) (CQ (5 # 2)) =
    Ok (Finite (CQ (43 # 7))) /\
  Evaluate (Pade (vZ [1; 2; 3]%Z) [CQ 1; CQ (-3 # 4); CQ (11 # 16)]) (CQ 4) =
    Ok (Finite (CQ 19)) /\
  map (Evaluate (Pade (vZ [1; 2; 3]%Z) [CQ 1; CQ (-3 # 4); CQ (11 # 16)])) (vZ [1; 2; 3]%Z) =
    map (fun v => Ok (Finite v)) (vZ [1; 4; 9]%Z).
Proof.
  split; [apply constructor_coefficients|]; repeat split; by_evaluation.
Qed.

(** * The arithmetic of [gmp_complex] *)

(** X1: [operator+], [operator-] and [operator*] obey the laws of a
    commutative ring: sums and products commute and associate, the
    product distributes over the sum, and subtracting undoes adding. *)
Theorem gmp_complex_ring_laws (x y w : complex) :
  (x + y = y + x)%C /\ (x + (y + w) = (x + y) + w)%C /\
  (x * y = y * x)%C /\ (x * (y * w) = (x * y) * w)%C /\
  (x * (y + w) = x * y + x * w)%C /\ (x * (y - w) = x * y - x * w)%C /\
  ((x + y) - y = x)%C /\ ((x - y) + y = x)%C /\
  (x + MP_0 = x)%C /\ (x * MP_1 = x)%C /\ (x * MP_0 = MP_0)%C.
Proof. unfold MP_0, MP_1. fold C0 C1. repeat split; ring. Qed.

(** X2: in exact arithmetic, that is with [inverse] at the exact
    division of [mpf_class], when [inverse] returns, what it returns is
    the reciprocal of its operand, on both sides, and taking the inverse
    again gives the operand back. *)
Theorem inverse_is_reciprocal (x y : complex) :
  inverse x = Ok y ->
  (x * y = MP_1)%C /\ (y * x = MP_1)%C /\ inverse y = Ok x.
Proof.
  intros H. change MP_1 with C1.
  assert (Hx : x <> C0).
  { intros ->. rewrite inverse_zero in H. discriminate. }
  rewrite (inverse_nonzero x Hx) in H. injection H as <-.
  assert (H1 : (x * Cinv x)%C = C1) by (field; exact Hx).
  split; [exact H1|]. split; [rewrite <- H1; ring|].
  assert (Hy : Cinv x <> C0).
  { intros E. rewrite E in H1. apply C1_neq_C0. rewrite <- H1. ring. }
  rewrite (inverse_nonzero _ Hy). f_equal. field. split; [exact Hx | exact C1_neq_C0].
Qed.

Lemma inverse_is_reciprocal_witness :
  (Cx 1 2 * Cx (Q2Qc (1 # 5)) (Q2Qc (-2 # 5)) = MP_1)%C /\
  (Cx (Q2Qc (1 # 5)) (Q2Qc (-2 # 5)) * Cx 1 2 = MP_1)%C /\
  inverse (Cx (Q2Qc (1 # 5)) (Q2Qc (-2 # 5))) = Ok (Cx 1 2).
Proof.
  apply (inverse_is_reciprocal (Cx 1 2) (Cx (Q2Qc (1 # 5)) (Q2Qc (-2 # 5)))).
  by_evaluation.
Defined.

(** X3: [operator/] throws exactly when its divisor is zero, whatever
    the division of [mpf_class] and the precision.  In exact arithmetic,
    that is with [operator/] at the exact division, when it returns, the
    quotient times the divisor is the dividend, and dividing a product
    by one of its factors gives the other back. *)
Theorem division_round_trip (quot : division) (prec : N) (x y : complex) :
  (gmp_div_with quot prec x y = Throw GMP_division_by_zero <-> y = MP_0) /\
  (forall q, gmp_div x y = Ok q -> (q * y)%C = x) /\
  (y <> MP_0 -> gmp_div (x * y)%C y = Ok x).
Proof.
  unfold MP_0. fold C0. split; [|split].
  - rewrite <- (inverse_with_zero quot prec y). unfold gmp_div_with.
    destruct (inverse_with quot prec y) as [r|e]; [|reflexivity].
    rewrite bind_Ok. split; discriminate.
  - intros q H.
    assert (Hy : y <> C0).
    { intros ->. rewrite gmp_div_zero in H. discriminate. }
    rewrite (gmp_div_nonzero x y Hy) in H. injection H as <-. field. exact Hy.
  - intros Hy. rewrite (gmp_div_nonzero _ y Hy). f_equal. field. exact Hy.
Qed.

Lemma division_round_trip_witness :
  gmp_div_with mpf_div_truncated 64%N (CQ 2) MP_0 = Throw GMP_division_by_zero /\
  (CQ (2 # 3) * CQ 3)%C = CQ 2 /\
  gmp_div (CQ 2 * CQ 3)%C (CQ 3) = Ok (CQ 2).
Proof.
  split; [|split].
  - apply (proj1 (division_round_trip mpf_div_truncated 64%N (CQ 2) MP_0)). reflexivity.
  - apply (proj1 (proj2 (division_round_trip mpf_div_truncated 64%N (CQ 2) (CQ 3)))
             (CQ (2 # 3))).
    by_evaluation.
  - apply (proj2 (proj2 (division_round_trip mpf_div_truncated 64%N (CQ 2) (CQ 3)))).
    by_evaluation.
Defined.

Lemma Qc_sq_nonneg (x : Qc) : 0 <= x * x.
Proof.
  change (0 <= Qred (x * x))%Q. rewrite (Qred_correct (x * x)). nra.
Qed.

(** X4: [norm()] is never negative and is zero for the zero number
    only; in exact arithmetic it is multiplicative: the norm of a
    product is the product of the norms. *)
Theorem norm_multiplicative (x y : complex) :
  norm (x * y)%C = norm x * norm y /\ 0 <= norm x /\ (norm x = 0 <-> x = MP_0).
Proof.
  split; [|split].
  - destruct x as [xr xi], y as [yr yi]. unfold norm, Cmul. simpl. ring.
  - unfold norm. rewrite <- (Qcplus_0_l 0).
    apply Qcplus_le_compat; apply Qc_sq_nonneg.
  - apply norm_zero_iff.
Qed.

(** * The constructor: what it returns and when it fails *)

(** X5: an approximant the constructor returns holds the points it was
    given and as many coefficients as points, its first coefficient is
    the first sample value, and the default precision is back to what it
    was. *)
Theorem constructor_shape (z u : vector) (st st' : N) (P : pade_approximant) :
  pade_approximant_new z u st = (Ok P, st') ->
  z_in P = z /\ length (a P) = length z /\ st' = st /\
  ((1 <= length z)%nat -> a P !! 0%nat = u !! 0%nat).
Proof.
  intros H. destruct (constructor_Ok_inv z u st st' P H) as (g & Hg & Hst & Hz & Hlen & Ha).
  split; [exact Hz|]. split; [exact Hlen|]. split; [exact Hst|].
  intros HN. destruct (tableau_Ok_inv z u g Hg) as (p & Hr & _).
  destruct (reaches_filled z u p g Hr) as [_ Hu _ H0 _ _ _].
  rewrite Ha by lia. rewrite H0 by lia.
  symmetry. apply list_lookup_lookup_total_lt. lia.
Qed.

Lemma constructor_shape_witness :
  z_in (Pade (vZ [1; 2; 3]%Z) [CQ 1; CQ (-3 # 4); CQ (11 # 16)]) = vZ [1; 2; 3]%Z /\
  length (a (Pade (vZ [1; 2; 3]%Z) [CQ 1; CQ (-3 # 4); CQ (11 # 16)])) =
    length (vZ [1; 2; 3]%Z) /\
  64%N = 64%N /\
  ((1 <= length (vZ [1; 2; 3]%Z))%nat ->
   a (Pade (vZ [1; 2; 3]%Z) [CQ 1; CQ (-3 # 4); CQ (11 # 16)]) !! 0%nat =
   vZ [1; 4; 9]%Z !! 0%nat).
Proof.
  apply (constructor_shape (vZ [1; 2; 3]%Z) (vZ [1; 4; 9]%Z) 64%N 64%N).
  by_evaluation.
Defined.



Lemma outcome_for_loop_ext {St} (body body' : nat -> St -> outcome St)
    (count start : nat) (s : St) :
  (forall i t, (start <= i < start + count)%nat -> body i t = body' i t) ->
  for_loop count start body s = for_loop count start body' s.
Proof.
  revert start s. induction count as [|n IH]; intros start s H; [reflexivity|].
  simpl. rewrite (H start s) by lia.
  destruct (body' start s) as [t|e]; [|reflexivity].
  rewrite !bind_Ok. apply IH. intros i t' Hi. apply H. lia.
Qed.

(** X7: the constructor reads the sample values [u_in(0 .. N-1)] only:
    two vectors of values that agree at these indices give the same
    result, whatever else they hold. *)
Theorem constructor_reads_first_values (z u u' : vector) (st : N) :
  (forall j, (j < length z)%nat -> u !! j = u' !! j) ->
  pade_approximant_new z u st = pade_approximant_new z u' st.
Proof.
  intros H. rewrite !pade_approximant_new_exact, !tableau_exact. unfold first_row.
  rewrite (outcome_for_loop_ext
    (fun f g => uf ← vec_get u f; arr_set g 0 f uf)
    (fun f g => uf ← vec_get u' f; arr_set g 0 f uf)); [reflexivity|].
  intros i t Hi. unfold vec_get. rewrite (H i) by lia. reflexivity.
Qed.

Lemma constructor_reads_first_values_witness :
  pade_approximant_new (vZ [1; 2]%Z) (vZ [1; 4; 9]%Z) 64%N =
  pade_approximant_new (vZ [1; 2]%Z) (vZ [1; 4]%Z) 64%N.
Proof.
  apply (constructor_reads_first_values (vZ [1; 2]%Z) (vZ [1; 4; 9]%Z) (vZ [1; 4]%Z) 64%N).
  intros j Hj. simpl in Hj. destruct j as [|[|j]]; [reflexivity | reflexivity | lia].
Defined.

Lemma reaches_lower_zero (z u : vector) (p : nat) (g : array2) :
  reaches z u p g -> forall i j, (j < i)%nat -> entry g i j = C0.
Proof.
  induction 1 as [g H1 | p g g' Hr IH Hp Hd Hl]; intros i j Hij.
  - assert (Hr : reaches z u 1 g) by (constructor; exact H1).
    destruct (reaches_filled z u 1 g Hr) as [_ _ _ _ _ _ Hzero]. apply Hzero. lia.
  - destruct (reaches_filled z u p g Hr) as [Hsq _ Hrange _ _ _ _].
    destruct (inner_loop_Ok_divides z p g ltac:(lia) Hsq g' Hl) as (_ & _ & _ & Hold).
    rewrite (entry_eq g' g) by (apply Hold; lia). apply IH, Hij.
Qed.

(** X8: the constructor fills the upper triangle of the tableau only:
    in the tableau it ends with, every element below the diagonal is
    still zero, and the first row holds the sample values. *)
Theorem tableau_upper_triangular (z u : vector) (g : array2) :
  tableau z u = Ok g ->
  (forall i j, (j < i)%nat -> entry g i j = MP_0) /\
  (forall j, (j < length z)%nat -> arr_get g 0 j = vec_get u j).
Proof.
  intros Hg. destruct (tableau_Ok_inv z u g Hg) as (p & Hr & _). split.
  - apply (reaches_lower_zero z u p g Hr).
  - intros j Hj. destruct (reaches_filled z u p g Hr) as [Hsq Hu _ H0 _ _ _].
    rewrite (arr_get_ok (length z)) by (exact Hsq || lia).
    rewrite H0 by lia. rewrite vec_get_ok by lia. reflexivity.
Qed.

Lemma tableau_upper_triangular_witness :
  (forall i j, (j < i)%nat -> entry [vZ [0; 1]%Z; [MP_0; MP_0]] i j = MP_0) /\
  (forall j, (j < length (vZ [0; 1]%Z))%nat ->
     arr_get [vZ [0; 1]%Z; [MP_0; MP_0]] 0 j = vec_get (vZ [0; 1]%Z) j).
Proof.
  apply (tableau_upper_triangular (vZ [0; 1]%Z) (vZ [0; 1]%Z)). reflexivity.
Defined.

Lemma divides_all_or_not (z : vector) (p : nat) (g : array2) (n : nat) :
  (forall j, (p <= j < p + n)%nat -> divides z p g j) \/
  exists j, (p <= j < p + n)%nat /\ ~ divides z p g j.
Proof.
  induction n as [|n [IH | (j & Hj & Hn)]].
  - left. intros j Hj. lia.
  - destruct (divides_dec z p g (p + n)%nat) as [Hd|Hd].
    + left. intros j Hj. destruct (decide (j = p + n)%nat) as [->|Hne]; [exact Hd|].
      apply IH. lia.
    + right. exists (p + n)%nat. split; [lia | exact Hd].
  - right. exists j. split; [lia | exact Hn].
Qed.

Lemma divides_negation (z : vector) (p : nat) (g : array2) (j : nat) :
  ~ divides z p g j -> entry g (p - 1) j = C0 \/ z !!! j = z !!! (p - 1)%nat.
Proof.
  intros H. destruct (decide (entry g (p - 1) j = C0)) as [E|E]; [left; exact E|].
  destruct (decide (z !!! j = z !!! (p - 1)%nat)) as [E'|E']; [right; exact E'|].
  exfalso. apply H. split; assumption.
Qed.

Lemma outer_loop_throw_inv (z u : vector) (count p : nat) (g : array2) (e : error) :
  reaches z u p g -> count = (length z - p)%nat ->
  outer_loop z (length z) count p g = Throw e ->
  exists p' g' j, reaches z u p' g' /\ (p' <= j < length z)%nat /\
    mpf_ltb (norm (entry g' (p' - 1) (p' - 1))) threshold = false /\
    ~ divides z p' g' j.
Proof.
  revert p g. induction count as [|k IH]; intros p g Hr Hc Ht; [discriminate|].
  pose proof (reaches_filled _ _ _ _ Hr) as [Hsq _ Hrange _ _ _ _].
  rewrite outer_loop_unfold in Ht by (exact Hsq || lia).
  destruct (mpf_ltb _ threshold) eqn:Hd; [discriminate|].
  destruct (divides_all_or_not z p g (length z - p)) as [Hall | (j & Hj & Hn)].
  - destruct (inner_loop_ok z p g ltac:(lia) Hsq) as (g' & Hl & _).
    { intros j Hj. apply Hall. lia. }
    rewrite Hl, bind_Ok in Ht.
    apply (IH (S p) g'); [eapply reaches_next; eauto; lia | lia | exact Ht].
  - exists p, g, j. split; [exact Hr|]. split; [lia|]. split; [exact Hd | exact Hn].
Qed.

(** X9: the division by zero is the only exception of the constructor
    and it is thrown for one reason only: at a step [p] the loop reached
    without truncating, some column [j >= p] has a zero element
    [g(p-1, j)] above it or a point [z(j)] equal to [z(p-1)]. *)
Theorem constructor_throw_cause (z u : vector) (st st' : N) :
  pade_approximant_new z u st = (Throw GMP_division_by_zero, st') ->
  exists p g j, reaches z u p g /\ (p <= j < length z)%nat /\
    ~ norm (entry g (p - 1) (p - 1)) < threshold /\
    (entry g (p - 1) j = MP_0 \/ z !!! j = z !!! (p - 1)%nat).
Proof.
  intros H.
  assert (Ht : tableau z u = Throw GMP_division_by_zero).
  { destruct (tableau z u) as [g|e] eqn:Hg.
    - destruct (constructor_Ok z u g Hg) as (a' & Hnew & _).
      rewrite Hnew in H. discriminate.
    - rewrite (constructor_Throw z u e st Hg) in H. congruence. }
  assert (Hu : (length z <= length u)%nat).
  { destruct (decide (length z <= length u)%nat) as [Hu|Hu]; [exact Hu|].
    rewrite tableau_short in Ht by lia. discriminate. }
  destruct (first_row_ok u (length z) Hu) as (g1 & Hg1 & _).
  assert (Hr : reaches z u 1 g1) by (constructor; exact Hg1).
  rewrite (tableau_from z u 1 g1 Hr) in Ht.
  destruct (outer_loop_throw_inv z u _ 1 g1 _ Hr eq_refl Ht)
    as (p & g & j & Hr' & Hj & Hd & Hn).
  exists p, g, j. split; [exact Hr'|]. split; [exact Hj|].
  split; [apply mpf_ltb_ge; exact Hd | apply divides_negation; exact Hn].
Qed.

Lemma constructor_throw_cause_witness :
  exists p g j, reaches (vZ [1; 1]%Z) (vZ [1; 1]%Z) p g /\
    (p <= j < length (vZ [1; 1]%Z))%nat /\
    ~ norm (entry g (p - 1) (p - 1)) < threshold /\
    (entry g (p - 1) j = MP_0 \/ vZ [1; 1]%Z !!! j = vZ [1; 1]%Z !!! (p - 1)%nat).
Proof.
  apply (constructor_throw_cause (vZ [1; 1]%Z) (vZ [1; 1]%Z) 64%N GMP_default_prec).
  by_evaluation.
Defined.

(** * The evaluator: singular points and trailing zeros *)


Lemma denominators_finite (P : pade_approximant) (e : complex) (i : nat)
    (s : accumulators) :
  denominators_nonzero P e -> eval_reaches P e i s ->
  exists x1 x2 y1, s = Acc (Finite x1) (Finite x2) (Finite y1).
Proof.
  intros Hnz. induction 1 as [a0 H0 | i s zi ai Hs IH Hzi Hai]; [eauto|].
  destruct IH as (x1 & x2 & y1 & ->).
  rewrite update_finite; [eauto|].
  intros H. apply (Hnz i _ zi ai Hs Hzi Hai). unfold Bnew. cbn [B1 dadd dmul].
  rewrite H. reflexivity.
Qed.

(** X11: for an approximant with [N >= 1] coefficients and enough
    points, the evaluator returns a finite value at [e] exactly when no
    [Bnew] of its recurrence is zero at [e]; otherwise it returns a
    value that is not finite. *)
Theorem evaluator_finite_iff (P : pade_approximant) (e : complex) :
  (1 <= length (a P) <= length (z_in P) + 1)%nat ->
  ((exists v, Evaluate P e = Ok (Finite v)) <-> denominators_nonzero P e) /\
  (~ denominators_nonzero P e <-> Evaluate P e = Ok NonFinite).
Proof.
  intros HN.
  assert (Hfin : (exists v, Evaluate P e = Ok (Finite v)) <-> denominators_nonzero P e).
  { split.
    - intros (v & Hv). apply (finite_value_denominators P e v); [lia | exact Hv].
    - intros Hnz. destruct (Evaluate_reaches P e HN) as (s & Hs & He).
      destruct (denominators_finite P e _ s Hnz Hs) as (x1 & x2 & y1 & ->).
      exists x2. exact He. }
  split; [exact Hfin|].
  destruct (Evaluate_reaches P e HN) as (s & Hs & He). split.
  - intros Hn. rewrite He. destruct (A2 s) as [v|] eqn:E; [|reflexivity].
    exfalso. apply Hn, Hfin. exists v. congruence.
  - intros Hv Hnz. apply Hfin in Hnz as (v & Hv'). congruence.
Qed.

Lemma evaluator_finite_iff_witness :
  ((exists v, Evaluate (Pade (vZ [0; 1; 2]%Z) [CQ 1; CQ (-1 # 2); CQ (1 # 2)]) (CQ 2) =
              Ok (Finite v)) <->
   denominators_nonzero (Pade (vZ [0; 1; 2]%Z) [CQ 1; CQ (-1 # 2); CQ (1 # 2)]) (CQ 2)) /\
  (~ denominators_nonzero (Pade (vZ [0; 1; 2]%Z) [CQ 1; CQ (-1 # 2); CQ (1 # 2)]) (CQ 2) <->
   Evaluate (Pade (vZ [0; 1; 2]%Z) [CQ 1; CQ (-1 # 2); CQ (1 # 2)]) (CQ 2) = Ok NonFinite).
Proof.
  apply (evaluator_finite_iff (Pade (vZ [0; 1; 2]%Z) [CQ 1; CQ (-1 # 2); CQ (1 # 2)]) (CQ 2)).
  simpl. split; repeat constructor.
Defined.






(** * Translation of the points *)

Lemma vec_get_translate (t : complex) (z : vector) (i : nat) :
  vec_get (translate t z) i = (x ← vec_get z i; Ok (x + t)%C).
Proof.
  unfold vec_get, translate. rewrite list_lookup_fmap.
  destruct (z !! i); reflexivity.
Qed.

Lemma inner_body_translate (t : complex) (z : vector) (p j : nat) (g : array2) :
  inner_body (translate t z) p j g = inner_body z p j g.
Proof.
  rewrite !inner_body_exact.
  destruct (arr_get g (p - 1) (p - 1)) as [gpp|e1]; [|reflexivity]. rewrite !bind_Ok.
  destruct (arr_get g (p - 1) j) as [gpj|e2]; [|reflexivity]. rewrite !bind_Ok.
  destruct (gmp_div gpp gpj) as [q|e3]; [|reflexivity]. rewrite !bind_Ok.
  rewrite !vec_get_translate.
  destruct (vec_get z j) as [zj|e4]; [|reflexivity]. rewrite !bind_Ok.
  destruct (vec_get z (p - 1)) as [zp|e5]; [|reflexivity]. rewrite !bind_Ok.
  replace ((zj + t) - (zp + t))%C with (zj - zp)%C by ring. reflexivity.
Qed.

Lemma outer_loop_translate (t : complex) (z : vector) (N count p : nat) (g : array2) :
  outer_loop (translate t z) N count p g = outer_loop z N count p g.
Proof.
  revert p g. induction count as [|k IH]; intros p g; [reflexivity|].
  rewrite !outer_loop_exact.
  destruct (arr_get g (p - 1) (p - 1)) as [gpp|e1]; [|reflexivity]. rewrite !bind_Ok.
  destruct (mpf_ltb (norm gpp) threshold); [reflexivity|].
  rewrite (outcome_for_loop_ext (inner_body (translate t z) p) (inner_body z p))
    by (intros; apply inner_body_translate).
  destruct (for_loop (N - p) p (inner_body z p) g) as [g'|e2]; [|reflexivity].
  rewrite !bind_Ok. apply IH.
Qed.

(** X13: the constructor uses the points through their differences
    only: moving every point by the same [t] changes neither the
    coefficients nor whether and where the constructor throws or
    truncates. *)
Theorem constructor_translation_invariant (t : complex) (z u : vector) (st : N) :
  pade_approximant_new (translate t z) u st =
  match pade_approximant_new z u st with
  | (Ok P, st') => (Ok (Pade (translate t (z_in P)) (a P)), st')
  | (Throw e, st') => (Throw e, st')
  end.
Proof.
  assert (Hlen : length (translate t z) = length z) by apply length_fmap.
  assert (Ht : tableau (translate t z) u = tableau z u).
  { rewrite !tableau_exact, Hlen.
    destruct (first_row u (length z) (new_array (length z))) as [g|e]; [|reflexivity].
    rewrite !bind_Ok. apply outer_loop_translate. }
  rewrite !pade_approximant_new_exact, Ht, Hlen.
  destruct (g ← tableau z u; diagonal (length z) g (replicate (length z) C0));
    reflexivity.
Qed.

Lemma step_translate (t : complex) (z a0 : vector) (e : complex) (i : nat)
    (s : accumulators) :
  step (Pade (translate t z) a0) (e + t)%C i s = step (Pade z a0) e i s.
Proof.
  unfold step, get_z_in, get_a, vec_get, translate. cbn [z_in a].
  rewrite !list_lookup_fmap.
  destruct (z !! i) as [zi|]; destruct (a0 !! (i + 1)%nat) as [ai|];
    cbv [mbind traced_bind mret traced_ret result reads fmap option_fmap option_map app];
    try reflexivity.
  replace ((e + t) - (zi + t))%C with (e - zi)%C by ring. reflexivity.
Qed.

(** X14: the evaluator uses the query point through its differences
    to the points only: the approximant with every point moved by [t],
    read at [e + t], is read at the same places and gives the same value
    as the approximant read at [e]. *)
Theorem evaluator_translation_covariant (t : complex) (z a0 : vector) (e : complex) :
  pade_eval (Pade (translate t z) a0) (e + t)%C = pade_eval (Pade z a0) e.
Proof.
  unfold pade_eval.
  change (get_a (Pade (translate t z) a0) 0) with (get_a (Pade z a0) 0).
  apply traced_bind_ext. intros x. cbn [a].
  rewrite (traced_for_loop_ext (step (Pade (translate t z) a0) (e + t)%C)
             (step (Pade z a0) e)) by (intros; apply step_translate).
  reflexivity.
Qed.

(** * The coefficients as reciprocal differences *)

Lemma filled_reciprocal_difference (z u : vector) (p : nat) (g : array2) :
  filled z u p g ->
  forall q j, (q < p)%nat -> (q <= j < length z)%nat ->
    entry g q j = reciprocal_difference z u q j.
Proof.
  intros [_ _ _ H0 Hrows _ _]. induction q as [|q IH]; intros j Hq Hj.
  - apply H0. lia.
  - destruct (Hrows (S q) j ltac:(lia) Hj) as [_ Hv]. rewrite Hv. unfold quotient.
    replace (S q - 1)%nat with q by lia. simpl.
    rewrite !IH by lia. reflexivity.
Qed.

(** X15: in exact arithmetic, that is with the constructor at the exact
    division of [mpf_class], the coefficient [a(k)] an approximant is
    built with is the [k]-th reciprocal difference of the data at
    [z(k)], which depends on the first [k + 1] points and values only,
    as long as no coefficient before it has a squared magnitude below
    [1e-20]. *)
Theorem coefficients_are_reciprocal_differences (z u : vector) (st st' : N)
    (P : pade_approximant) (k : nat) :
  pade_approximant_new z u st = (Ok P, st') ->
  (k < length z)%nat ->
  (forall j aj, (j < k)%nat -> a P !! j = Some aj -> ~ norm aj < threshold) ->
  a P !! k = Some (reciprocal_difference z u k k).
Proof.
  intros Hnew Hk Htrunc.
  destruct (constructor_Ok_inv z u st st' P Hnew) as (g & Hg & _ & _ & _ & Ha).
  destruct (tableau_Ok_inv z u g Hg) as (p & Hr & Hs).
  pose proof (reaches_filled z u p g Hr) as Hf.
  assert (Hp : (k < p)%nat).
  { destruct Hf as [_ _ Hrange _ _ _ _].
    destruct Hs as [Hs|Hs]; [lia|].
    destruct (decide (k < p)%nat) as [Hlt|Hge]; [exact Hlt|]. exfalso.
    apply (Htrunc (p - 1)%nat (entry g (p - 1) (p - 1)) ltac:(lia)).
    - apply Ha. lia.
    - apply mpf_ltb_lt. exact Hs. }
  rewrite Ha by exact Hk. f_equal.
  apply (filled_reciprocal_difference z u p g Hf); lia.
Qed.

Lemma coefficients_are_reciprocal_differences_witness :
  a (Pade (vZ [1; 2; 3]%Z) [CQ 1; CQ (-3 # 4); CQ (11 # 16)]) !! 2%nat =
  Some (reciprocal_difference (vZ [1; 2; 3]%Z) (vZ [1; 4; 9]%Z) 2 2).
Proof.
  apply (coefficients_are_reciprocal_differences (vZ [1; 2; 3]%Z) (vZ [1; 4; 9]%Z)
           64%N 64%N).
  - by_evaluation.
  - simpl. repeat constructor.
  - intros j aj Hj Haj.
    destruct j as [|[|j]]; [| |lia]; injection Haj as <-; apply Qcle_not_lt;
      vm_compute; discriminate.
Defined.

Lemma reciprocal_difference_prefix (z u z' u' : vector) (p j : nat) :
  (forall i, (i < p)%nat \/ i = j -> z !!! i = z' !!! i /\ u !!! i = u' !!! i) ->
  reciprocal_difference z u p j = reciprocal_difference z' u' p j.
Proof.
  revert j. induction p as [|q IH]; intros j H.
  - simpl. apply H. right. reflexivity.
  - simpl. rewrite (IH q), (IH j).
    + destruct (H j ltac:(right; reflexivity)) as [-> _].
      destruct (H q ltac:(left; lia)) as [-> _]. reflexivity.
    + intros i [Hi| ->]; apply H; [left; lia | right; reflexivity].
    + intros i [Hi| ->]; apply H; left; lia.
Qed.

(** X16: in the coefficients of an approximant the constructor returns,
    a coefficient with a squared magnitude below [1e-20] is followed by
    zeros only. *)
Theorem small_coefficient_ends_sequence (z u : vector) (st st' : N)
    (P : pade_approximant) (j k : nat) (aj : complex) :
  pade_approximant_new z u st = (Ok P, st') ->
  a P !! j = Some aj -> norm aj < threshold ->
  (j < k < length z)%nat ->
  a P !! k = Some MP_0.
Proof.
  intros Hnew Haj Hlt Hjk.
  destruct (constructor_Ok_inv z u st st' P Hnew) as (g & Hg & _ & _ & _ & Ha).
  destruct (tableau_Ok_inv z u g Hg) as (p & Hr & Hs).
  destruct (reaches_filled z u p g Hr) as [_ _ Hrange _ _ Hdiag Hzero].
  rewrite Ha in Haj by lia. injection Haj as <-.
  assert (Hp : (p <= j + 1)%nat).
  { destruct (decide (p <= j + 1)%nat) as [H|H]; [exact H|]. exfalso.
    pose proof (Hdiag (j + 1)%nat ltac:(lia)) as Hd.
    replace (j + 1 - 1)%nat with j in Hd by lia.
    apply mpf_ltb_ge in Hd. contradiction. }
  rewrite Ha by lia. rewrite Hzero by lia. reflexivity.
Qed.

Lemma small_coefficient_ends_sequence_witness :
  a (Pade (vZ [0; 1; 2]%Z) (vZ [0; 0; 0]%Z)) !! 2%nat = Some MP_0.
Proof.
  apply (small_coefficient_ends_sequence (vZ [0; 1; 2]%Z) (vZ [0; 3; 5]%Z) 64%N 64%N
           (Pade (vZ [0; 1; 2]%Z) (vZ [0; 0; 0]%Z)) 0 2 (CQ 0)).
  - by_evaluation.
  - reflexivity.
  - vm_compute. reflexivity.
  - simpl. split; repeat constructor.
Defined.

(** A coefficient of a returned approximant is either the reciprocal
    difference, no coefficient before it being small, or zero, a
    coefficient before it being small. *)
Lemma coefficient_cases (z u : vector) (st st' : N) (P : pade_approximant) (k : nat) :
  pade_approximant_new z u st = (Ok P, st') -> (k < length z)%nat ->
  (a P !! k = Some (reciprocal_difference z u k k) /\
   forall j cj, (j < k)%nat -> a P !! j = Some cj -> ~ norm cj < threshold) \/
  (a P !! k = Some C0 /\
   exists j cj, (j < k)%nat /\ a P !! j = Some cj /\ norm cj < threshold).
Proof.
  intros Hnew Hk.
  destruct (constructor_Ok_inv z u st st' P Hnew) as (g & Hg & _ & _ & _ & Ha).
  destruct (tableau_Ok_inv z u g Hg) as (p & Hr & Hs).
  pose proof (reaches_filled z u p g Hr) as Hf.
  destruct (Hf) as [_ _ Hrange _ _ Hdiag Hzero].
  destruct (decide (k < p)%nat) as [Hlt|Hge].
  - left. split.
    + rewrite Ha by exact Hk. f_equal.
      apply (filled_reciprocal_difference z u p g Hf); lia.
    + intros j cj Hj Hc. rewrite Ha in Hc by lia. injection Hc as <-.
      pose proof (Hdiag (j + 1)%nat ltac:(lia)) as Hd.
      replace (j + 1 - 1)%nat with j in Hd by lia. apply mpf_ltb_ge, Hd.
  - right. split.
    + rewrite Ha by exact Hk. rewrite Hzero by lia. reflexivity.
    + destruct Hs as [Hs|Hs]; [lia|].
      exists (p - 1)%nat, (entry g (p - 1) (p - 1)).
      split; [lia|]. split; [apply Ha; lia | apply mpf_ltb_lt, Hs].
Qed.

(** X17: a coefficient depends on the points and values up to its own
    index only: two inputs that agree on the first [k + 1] points and
    values, and for which the constructor returns, give the same
    coefficient [a(k)], however many further samples either has. *)
Theorem coefficient_depends_on_prefix (z u z' u' : vector) (st1 st1' st2 st2' : N)
    (P P' : pade_approximant) (k : nat) :
  pade_approximant_new z u st1 = (Ok P, st1') ->
  pade_approximant_new z' u' st2 = (Ok P', st2') ->
  (k < length z)%nat -> (k < length z')%nat ->
  (forall i, (i <= k)%nat -> z !! i = z' !! i /\ u !! i = u' !! i) ->
  a P !! k = a P' !! k.
Proof.
  intros Hnew Hnew'. induction k as [k IH] using lt_wf_ind. intros Hk Hk' Hagree.
  assert (Hbefore : forall j, (j < k)%nat -> a P !! j = a P' !! j).
  { intros j Hj. apply (IH j Hj); [lia | lia|]. intros i Hi. apply Hagree. lia. }
  destruct (coefficient_cases z u st1 st1' P k Hnew Hk)
    as [[Hv Hbig] | [Hv (j & cj & Hj & Hc & Hs)]];
  destruct (coefficient_cases z' u' st2 st2' P' k Hnew' Hk')
    as [[Hv' Hbig'] | [Hv' (j' & cj' & Hj' & Hc' & Hs')]].
  - rewrite Hv, Hv'. f_equal. apply reciprocal_difference_prefix. intros i Hi.
    destruct (Hagree i ltac:(lia)) as [Hz Hu].
    rewrite !list_lookup_total_alt, Hz, Hu. auto.
  - exfalso. apply (Hbig j' cj' Hj'); [|exact Hs']. rewrite Hbefore by exact Hj'. exact Hc'.
  - exfalso. apply (Hbig' j cj Hj); [|exact Hs]. rewrite <- Hbefore by exact Hj. exact Hc.
  - rewrite Hv, Hv'. reflexivity.
Qed.

Lemma coefficient_depends_on_prefix_witness :
  a (Pade (vZ [1; 2; 3]%Z) [CQ 1; CQ (-3 # 4); CQ (11 # 16)]) !! 1%nat =
  a (Pade (vZ [1; 2]%Z) [CQ 1; CQ (-3 # 4)]) !! 1%nat.
Proof.
  apply (coefficient_depends_on_prefix (vZ [1; 2; 3]%Z) (vZ [1; 4; 9]%Z)
           (vZ [1; 2]%Z) (vZ [1; 4]%Z) 64%N 64%N 64%N 64%N).
  - by_evaluation.
  - by_evaluation.
  - simpl. repeat constructor.
  - simpl. repeat constructor.
  - intros i Hi. destruct i as [|[|i]]; [split; reflexivity | split; reflexivity | lia].
Defined.
